(** * vy-web-note: the storage layer, the image resolution pass and the
      autosave hook, embedded in Rocq

    The development follows the sources:
    - [Json]        the values the document JSON is made of, with the
                    JavaScript operations the code applies to them;
    - [Storage]     src/lib/storage.ts over a model of the browser's object
                    store (IndexedDB through the idb wrapper);
    - [Page]        resolveImageUrls and onSave of src/app/page.tsx;
    - [CustomImage] handleImagePaste / handleImageDrop of lib/custom-image.ts;
    - [Autosave]    src/hooks/useAutosave.tsx as a timed state machine;
    - [Home]        the renders of the component Home of src/app/page.tsx
                    around the hook. *)

From stdpp Require Import gmap strings list pretty sorting.
From Stdlib Require Import ZArith Lia.

Set Warnings "-register-all,-clear-no-such-hyp".
Local Open Scope string_scope.
Local Open Scope Z_scope.

(* ===================================================================== *)
(** ** JSON values and the JavaScript operations used on them            *)
(* ===================================================================== *)

Module Json.

(** The document is typed [any] in the sources: any structured-clonable
    value.  Numbers stand in as integers (the code never computes with a
    number of the document, it only tests truthiness). *)
Inductive json : Type :=
| JUndefined
| JNull
| JBool (b : bool)
| JNum (z : Z)
| JStr (s : string)
| JArr (items : list json)
| JObj (fields : list (string * json)).

(** [!!v] of JavaScript. *)
Definition truthy (v : json) : bool :=
  match v with
  | JUndefined | JNull => false
  | JBool b => b
  | JNum z => negb (z =? 0)
  | JStr s => negb (String.eqb s "")
  | JArr _ | JObj _ => true
  end.

(** Own properties of an object literal, in insertion order. *)
Fixpoint assoc_get (k : string) (fs : list (string * json)) : option json :=
  match fs with
  | [] => None
  | (k', v) :: rest => if String.eqb k k' then Some v else assoc_get k rest
  end.

(** Assignment of one property: an existing key keeps its place, a new key
    goes last (what [{...o, k: v}] does to the copy of [o]). *)
Fixpoint assoc_set (k : string) (v : json) (fs : list (string * json))
  : list (string * json) :=
  match fs with
  | [] => [(k, v)]
  | (k', v') :: rest =>
      if String.eqb k k' then (k, v) :: rest else (k', v') :: assoc_set k v rest
  end.

(** [v.k] for a [v] that is neither null nor undefined.  The keys the code
    reads (type, attrs, imageId, content, src) are no built-in property of
    strings, numbers, booleans or arrays, so those yield undefined. *)
Definition prop (k : string) (v : json) : json :=
  match v with
  | JObj fs => default JUndefined (assoc_get k fs)
  | _ => JUndefined
  end.

(** [v?.k] *)
Definition opt_prop (k : string) (v : json) : json :=
  match v with
  | JUndefined | JNull => JUndefined
  | _ => prop k v
  end.

(** [{...o, k: v}].  Spreading is only ever applied to objects by the code;
    the other cases are the spread of a value without own enumerable
    properties. *)
Definition spread_with (o : json) (k : string) (v : json) : json :=
  match o with
  | JObj fs => JObj (assoc_set k v fs)
  | _ => JObj [(k, v)]
  end.

(** [v === 'image'] *)
Definition is_str (s : string) (v : json) : bool :=
  match v with
  | JStr s' => String.eqb s' s
  | _ => false
  end.

Definition isArray (v : json) : bool :=
  match v with JArr _ => true | _ => false end.

(** Induction over nested values. *)
Section JsonInd.
Variable P : json → Prop.
Hypothesis Hundef : P JUndefined.
Hypothesis Hnull : P JNull.
Hypothesis Hbool : ∀ b, P (JBool b).
Hypothesis Hnum : ∀ z, P (JNum z).
Hypothesis Hstr : ∀ s, P (JStr s).
Hypothesis Harr : ∀ l, Forall P l → P (JArr l).
Hypothesis Hobj : ∀ fs, Forall (λ kv, P kv.2) fs → P (JObj fs).

Fixpoint json_nested_ind (v : json) : P v :=
  match v with
  | JUndefined => Hundef
  | JNull => Hnull
  | JBool b => Hbool b
  | JNum z => Hnum z
  | JStr s => Hstr s
  | JArr l =>
      Harr l ((fix go (l : list json) : Forall P l :=
                 match l with
                 | [] => Forall_nil_2 _
                 | x :: t => Forall_cons_2 _ _ _ (json_nested_ind x) (go t)
                 end) l)
  | JObj fs =>
      Hobj fs ((fix go (fs : list (string * json))
                  : Forall (λ kv, P kv.2) fs :=
                  match fs with
                  | [] => Forall_nil_2 _
                  | kv :: t =>
                      Forall_cons_2 (λ kv, P kv.2) _ _
                        (json_nested_ind kv.2) (go t)
                  end) fs)
  end.
End JsonInd.

End Json.
Import Json.

(* ===================================================================== *)
(** ** src/lib/storage.ts                                                *)
(* ===================================================================== *)

Module Storage.

(** A [Blob]: a MIME type and opaque bytes. *)
Record Blob := mkBlob { blob_type : string; blob_bytes : list Byte.byte }.

(** The values of the two object stores of [NotesDB]. *)
Record DocRecord := mkDoc {
  doc_id : string;
  doc_content : json;
  doc_updatedAt : Z;
}.

Record ImageRecord := mkImage {
  img_id : string;
  img_blob : Blob;
  img_createdAt : Z;
}.

Definition DB_NAME : string := "notes-app-db".
Definition DB_VERSION : Z := 1.
Definition DOCUMENT_ID : string := "main-document".

(** What the module can see and touch of the browser.
    - [dbInstance]: the module variable caching the open connection;
    - [documents], [images]: the two object stores (a store that was never
      created is the empty map);
    - [objectURLs]: the blobs URL.createObjectURL was called on, in order;
    - [console]: the lines written by console.error, oldest first;
    - [faults]: the outcome of the IndexedDB requests to come, [None] for a
      request that succeeds and [Some e] for one rejected with error [e]
      (past the end of the list every request succeeds);
    - [clock], [random]: the values the calls of Date.now() and of
      Math.random().toString(36).substr(2, 9) to come will yield. *)
Record World := mkWorld {
  dbInstance : bool;
  documents : gmap string DocRecord;
  images : gmap string ImageRecord;
  objectURLs : list Blob;
  console : list (string * string);
  faults : list (option string);
  clock : list Z;
  random : list string;
}.

Definition set_dbInstance (b : bool) (w : World) : World :=
  mkWorld b (documents w) (images w) (objectURLs w) (console w)
          (faults w) (clock w) (random w).
Definition set_documents (d : gmap string DocRecord) (w : World) : World :=
  mkWorld (dbInstance w) d (images w) (objectURLs w) (console w)
          (faults w) (clock w) (random w).
Definition set_images (i : gmap string ImageRecord) (w : World) : World :=
  mkWorld (dbInstance w) (documents w) i (objectURLs w) (console w)
          (faults w) (clock w) (random w).
Definition set_objectURLs (u : list Blob) (w : World) : World :=
  mkWorld (dbInstance w) (documents w) (images w) u (console w)
          (faults w) (clock w) (random w).
Definition set_console (c : list (string * string)) (w : World) : World :=
  mkWorld (dbInstance w) (documents w) (images w) (objectURLs w) c
          (faults w) (clock w) (random w).
Definition set_faults (f : list (option string)) (w : World) : World :=
  mkWorld (dbInstance w) (documents w) (images w) (objectURLs w) (console w)
          f (clock w) (random w).
Definition set_clock (c : list Z) (w : World) : World :=
  mkWorld (dbInstance w) (documents w) (images w) (objectURLs w) (console w)
          (faults w) c (random w).
Definition set_random (r : list string) (w : World) : World :=
  mkWorld (dbInstance w) (documents w) (images w) (objectURLs w) (console w)
          (faults w) (clock w) r.

(** An async function either fulfils with a value or rejects with an
    error; both leave a world behind. *)
Inductive outcome (A : Type) : Type :=
| Ok (a : A)
| Throw (e : string).
Arguments Ok {A} a.
Arguments Throw {A} e.

Definition M (A : Type) : Type := World → outcome A * World.

Definition ret {A} (a : A) : M A := λ w, (Ok a, w).
Definition throw {A} (e : string) : M A := λ w, (Throw e, w).
Definition bind {A B} (m : M A) (k : A → M B) : M B :=
  λ w, match m w with
       | (Ok a, w') => k a w'
       | (Throw e, w') => (Throw e, w')
       end.
(** [try { m } catch (error) { h error }] *)
Definition try_catch {A} (m : M A) (h : string → M A) : M A :=
  λ w, match m w with
       | (Ok a, w') => (Ok a, w')
       | (Throw e, w') => h e w'
       end.

Declare Scope storage_scope.
Delimit Scope storage_scope with storage.
Notation "x <- m ;; k" := (bind m (λ x, k))
  (at level 100, m at next level, right associativity) : storage_scope.
Notation "m ;;; k" := (bind m (λ _, k))
  (at level 100, right associativity) : storage_scope.
Local Open Scope storage_scope.

(** *** The browser primitives *)

(** One IndexedDB request: it takes its outcome from [faults]. *)
Definition request : M unit :=
  λ w, match faults w with
       | [] => (Ok tt, w)
       | None :: rest => (Ok tt, set_faults rest w)
       | Some e :: rest => (Throw e, set_faults rest w)
       end.

Definition console_error (msg : string) (e : string) : M unit :=
  λ w, (Ok tt, set_console (console w ++ [(msg, e)]) w).

(** [Date.now()] *)
Definition Date_now : M Z :=
  λ w, match clock w with
       | [] => (Ok 0, w)
       | t :: rest => (Ok t, set_clock rest w)
       end.

(** [Math.random().toString(36).substr(2, 9)] *)
Definition random_suffix : M string :=
  λ w, match random w with
       | [] => (Ok "", w)
       | r :: rest => (Ok r, set_random rest w)
       end.

(** The n-th object URL minted in this page. *)
Definition blobURL (n : nat) : string := "blob:" +:+ pretty n.

(** [URL.createObjectURL(blob)] *)
Definition createObjectURL (b : Blob) : M string :=
  λ w, (Ok (blobURL (length (objectURLs w))),
        set_objectURLs (objectURLs w ++ [b]) w).

(** The blob an object URL displays. *)
Definition url_displays (w : World) (url : string) (b : Blob) : Prop :=
  ∃ n : nat, url = blobURL n ∧ objectURLs w !! n = Some b.

(** What IndexedDB accepts as a key, among the values of [json]: numbers,
    strings, and arrays of keys.  Anything else makes the request function
    throw a DataError before a request is made. *)
Fixpoint validKey (k : json) : bool :=
  match k with
  | JNum _ | JStr _ => true
  | JArr l => forallb validKey l
  | _ => false
  end.

(** [db.put('documents', record)]; the key path of both stores is 'id'. *)
Definition db_put_documents (r : DocRecord) : M unit :=
  request ;;; λ w, (Ok tt, set_documents (<[doc_id r := r]> (documents w)) w).

Definition db_get_documents (k : string) : M (option DocRecord) :=
  request ;;; λ w, (Ok (documents w !! k), w).

Definition db_put_images (r : ImageRecord) : M unit :=
  request ;;; λ w, (Ok tt, set_images (<[img_id r := r]> (images w)) w).

(** [db.get('images', key)]: every key of the store is a string, so a key
    of another kind finds nothing. *)
Definition db_get_images (k : json) : M (option ImageRecord) :=
  if validKey k then
    request ;;;
    λ w, (Ok (match k with JStr s => images w !! s | _ => None end), w)
  else throw "DataError".

Definition str_le (a b : string) : Prop := String.leb a b = true.
#[global] Instance str_le_dec : RelDecision str_le.
Proof. intros a b. unfold str_le. apply _. Defined.

(** [db.getAllKeys('images')]: the keys in ascending order. *)
Definition db_getAllKeys_images : M (list string) :=
  request ;;; λ w, (Ok (merge_sort str_le (elements (dom (images w)))), w).

Definition db_delete_images (k : string) : M unit :=
  request ;;; λ w, (Ok tt, set_images (delete k (images w)) w).

(** *** The module's functions *)

(** getDB: the cached connection, or a newly opened one.  Opening is a
    request; the upgrade callback creates the two stores when absent. *)
Definition getDB : M unit :=
  λ w, if dbInstance w then (Ok tt, w)
       else (request ;;; λ w', (Ok tt, set_dbInstance true w')) w.

Definition saveDocument (docJson : json) : M unit :=
  try_catch
    (getDB ;;;
     now <- Date_now ;;
     db_put_documents (mkDoc DOCUMENT_ID docJson now))
    (λ error, console_error "Failed to save document:" error ;;; throw error).

Definition loadDocument : M json :=
  try_catch
    (getDB ;;;
     doc <- db_get_documents DOCUMENT_ID ;;
     (* doc?.content || null *)
     let content := match doc with
                    | Some r => doc_content r
                    | None => JUndefined
                    end in
     ret (if truthy content then content else JNull))
    (λ error, console_error "Failed to load document:" error ;;; ret JNull).

Definition saveImage (blob : Blob) : M string :=
  try_catch
    (getDB ;;;
     t <- Date_now ;;
     r <- random_suffix ;;
     let imageId := "img-" +:+ pretty t +:+ "-" +:+ r in
     createdAt <- Date_now ;;
     db_put_images (mkImage imageId blob createdAt) ;;;
     ret imageId)
    (λ error, console_error "Failed to save image:" error ;;; throw error).

(** The result is [string | null]: [None] is null.  The parameter is typed
    string, but resolveImageUrls passes whatever the imageId attribute
    holds, so it is taken as a value here. *)
Definition loadImage (imageId : json) : M (option string) :=
  try_catch
    (getDB ;;;
     image <- db_get_images imageId ;;
     match image with
     | None => ret None
     | Some r =>
         objectURL <- createObjectURL (img_blob r) ;;
         ret (Some objectURL)
     end)
    (λ error, console_error "Failed to load image:" error ;;; ret None).

Definition getAllImages : M (list string) :=
  try_catch
    (getDB ;;;
     images <- db_getAllKeys_images ;;
     ret images)
    (λ error, console_error "Failed to get all images:" error ;;; ret []).

Definition deleteImage (imageId : string) : M unit :=
  try_catch
    (getDB ;;;
     db_delete_images imageId)
    (λ error, console_error "Failed to delete image:" error ;;; throw error).

End Storage.
Import Storage.

(* ===================================================================== *)
(** ** src/app/page.tsx: image resolution and the save callback          *)
(* ===================================================================== *)

Module Page.
Local Open Scope storage_scope.

(** [Promise.all(xs.map(f))], the calls taken one after the other from left
    to right.  The real calls overlap at their awaits; they only read the
    stores, so the overlap changes which fresh object URL each one gets and
    the order of the console lines, not the values. *)
Definition mapM {A B} (f : A → M B) : list A → M (list B) :=
  fix go (l : list A) : M (list B) :=
    match l with
    | [] => ret []
    | x :: rest => y <- f x ;; ys <- go rest ;; ret (y :: ys)
    end.

(** The first [if] of resolveImageUrls: [Some node] when it returns. *)
Definition resolveImageNode (content : json) : M (option json) :=
  if is_str "image" (prop "type" content)
     && truthy (opt_prop "imageId" (prop "attrs" content))
  then
    url <- loadImage (prop "imageId" (prop "attrs" content)) ;;
    match url with
    | Some u =>
        if truthy (JStr u)
        then ret (Some (spread_with content "attrs"
                          (spread_with (prop "attrs" content) "src" (JStr u))))
        else ret None
    | None => ret None
    end
  else ret None.

(** resolveImageUrls.  The lookup of [content.content] is written out as a
    walk over the fields so that the recursion is structural;
    [resolveImageUrls_unfold] below gives it back in the source's shape. *)
Fixpoint resolveImageUrls (content : json) : M json :=
  if negb (truthy content) then ret content
  else
    early <- resolveImageNode content ;;
    match early with
    | Some resolved => ret resolved
    | None =>
        match content with
        | JObj fs =>
            (fix field (fs' : list (string * json)) : M json :=
               match fs' with
               | [] => ret content
               | (k, v) :: rest =>
                   if String.eqb "content" k then
                     match v with
                     | JArr children =>
                         resolvedChildren <- mapM resolveImageUrls children ;;
                         ret (spread_with content "content"
                                (JArr resolvedChildren))
                     | _ => ret content
                     end
                   else field rest
               end) fs
        | _ => ret content
        end
    end.

(** The [onSave] callback given to useAutosave; [editor] is the state
    variable, [Some json] standing for an editor whose getJSON() is
    [json]. *)
Definition onSave (editor : option json) : M unit :=
  match editor with
  | Some json => saveDocument json
  | None => ret tt
  end.

(** The body of loadDoc up to setContent: the content handed to the
    editor, [None] when setContent is not called. *)
Definition loadDoc : M (option json) :=
  savedContent <- loadDocument ;;
  if truthy savedContent
  then resolvedContent <- resolveImageUrls savedContent ;;
       ret (Some resolvedContent)
  else ret None.

End Page.
Import Page.

(* ===================================================================== *)
(** ** lib/custom-image.ts and the insertion in components/Editor.tsx    *)
(* ===================================================================== *)

Module CustomImage.
Local Open Scope storage_scope.

(** A clipboard item or a dropped file: its MIME type and, for an item,
    what getAsFile() yields. *)
Record Item := mkItem { item_type : string; getAsFile : option Blob }.

(** [s.indexOf('image') !== -1] *)
Definition mentions_image (s : string) : bool :=
  match String.index 0 "image" s with
  | Some _ => true
  | None => false
  end.

(** The [try] block shared by the paste and the drop handler; the pair is
    the object [{ imageId, src }]. *)
Definition storeAndLoad (blob : Blob) (msg : string)
  : M (option (string * string)) :=
  try_catch
    (imageId <- saveImage blob ;;
     src <- loadImage (JStr imageId) ;;
     match src with
     | Some s => if truthy (JStr s) then ret (Some (imageId, s)) else ret None
     | None => ret None
     end)
    (λ error, console_error msg error ;;; ret None).

Fixpoint pasteItems (items : list Item) : M (option (string * string)) :=
  match items with
  | [] => ret None
  | item :: rest =>
      if mentions_image (item_type item) then
        match getAsFile item with
        | Some blob =>
            r <- storeAndLoad blob "Failed to handle pasted image:" ;;
            match r with
            | Some imageData => ret (Some imageData)
            | None => pasteItems rest
            end
        | None => pasteItems rest
        end
      else pasteItems rest
  end.

(** handleImagePaste; the argument is [event.clipboardData?.items]. *)
Definition handleImagePaste (items : option (list Item))
  : M (option (string * string)) :=
  match items with
  | None => ret None
  | Some l => pasteItems l
  end.

Fixpoint dropFiles (files : list Blob) : M (option (string * string)) :=
  match files with
  | [] => ret None
  | file :: rest =>
      if mentions_image (blob_type file) then
        r <- storeAndLoad file "Failed to handle dropped image:" ;;
        match r with
        | Some imageData => ret (Some imageData)
        | None => dropFiles rest
        end
      else dropFiles rest
  end.

(** handleImageDrop; the argument is [event.dataTransfer?.files]. *)
Definition handleImageDrop (files : option (list Blob))
  : M (option (string * string)) :=
  match files with
  | None => ret None
  | Some l => dropFiles l
  end.

(** The node the editor is asked to insert for a pasted or dropped image:
    [{ type: 'image', attrs: { src, imageId } }]. *)
Definition imageNode (imageData : string * string) : json :=
  JObj [("type", JStr "image");
        ("attrs", JObj [("src", JStr imageData.2);
                        ("imageId", JStr imageData.1)])].

(** The options of [CustomImage.configure] in components/Editor.tsx. *)
Record ImageOptions := mkImageOptions { inline : bool; allowBase64 : bool }.
Definition imageOptions : ImageOptions := mkImageOptions false true.

End CustomImage.
Import CustomImage.

(* ===================================================================== *)
(** ** src/hooks/useAutosave.tsx                                         *)
(* ===================================================================== *)

Module Autosave.

(** [AutosaveStatus].  [status] is a string at run time; that it only ever
    holds one of four values is a property to prove, not a typing fact.
    [lastSaved] is a Date (its time in ms) or null. *)
Record AutosaveStatus := mkStatus {
  status : string;
  lastSaved : option Z;
  countdown : Z;
}.

(** The two kinds of timer the hook creates, with what their callbacks
    close over: the save timer of [setTimeout(() => save(), delay)], and the
    countdown of [setInterval(..., 1000)] with its local variable
    [remainingSeconds]. *)
Inductive Timer : Type :=
| SaveTimer (due : Z)
| CountdownTimer (due : Z) (remainingSeconds : Z).

(** One mounted instance of the hook, with the part of the browser it
    drives.
    - [now]: the time of the event loop, in ms;
    - [hstatus]: the state variable [status];
    - [timeoutRef], [countdownIntervalRef], [pendingChangesRef]: the refs
      (a timer handle is a positive integer, null is [None]);
    - [timers]: the browser's table of active timers, [nextTimer] the next
      handle it hands out;
    - [awaiting]: how many runs of [save] are suspended at [await onSave()];
    - [onSaveCalls]: how many times [onSave] has been called so far;
    - [errors]: what console.error has printed. *)
Record Hook := mkHook {
  now : Z;
  hstatus : AutosaveStatus;
  timeoutRef : option nat;
  countdownIntervalRef : option nat;
  pendingChangesRef : bool;
  timers : gmap nat Timer;
  nextTimer : nat;
  awaiting : nat;
  onSaveCalls : nat;
  errors : list (string * string);
}.

Definition set_now (t : Z) (h : Hook) : Hook :=
  mkHook t (hstatus h) (timeoutRef h) (countdownIntervalRef h)
         (pendingChangesRef h) (timers h) (nextTimer h) (awaiting h)
         (onSaveCalls h) (errors h).
(** [setStatus(f)]: updates are applied in the order they are queued. *)
Definition setStatus (f : AutosaveStatus → AutosaveStatus) (h : Hook) : Hook :=
  mkHook (now h) (f (hstatus h)) (timeoutRef h) (countdownIntervalRef h)
         (pendingChangesRef h) (timers h) (nextTimer h) (awaiting h)
         (onSaveCalls h) (errors h).
Definition set_timeoutRef (r : option nat) (h : Hook) : Hook :=
  mkHook (now h) (hstatus h) r (countdownIntervalRef h)
         (pendingChangesRef h) (timers h) (nextTimer h) (awaiting h)
         (onSaveCalls h) (errors h).
Definition set_countdownIntervalRef (r : option nat) (h : Hook) : Hook :=
  mkHook (now h) (hstatus h) (timeoutRef h) r
         (pendingChangesRef h) (timers h) (nextTimer h) (awaiting h)
         (onSaveCalls h) (errors h).
Definition set_pendingChangesRef (b : bool) (h : Hook) : Hook :=
  mkHook (now h) (hstatus h) (timeoutRef h) (countdownIntervalRef h)
         b (timers h) (nextTimer h) (awaiting h)
         (onSaveCalls h) (errors h).
Definition set_timers (t : gmap nat Timer) (h : Hook) : Hook :=
  mkHook (now h) (hstatus h) (timeoutRef h) (countdownIntervalRef h)
         (pendingChangesRef h) t (nextTimer h) (awaiting h)
         (onSaveCalls h) (errors h).
Definition set_nextTimer (n : nat) (h : Hook) : Hook :=
  mkHook (now h) (hstatus h) (timeoutRef h) (countdownIntervalRef h)
         (pendingChangesRef h) (timers h) n (awaiting h)
         (onSaveCalls h) (errors h).
Definition set_awaiting (n : nat) (h : Hook) : Hook :=
  mkHook (now h) (hstatus h) (timeoutRef h) (countdownIntervalRef h)
         (pendingChangesRef h) (timers h) (nextTimer h) n
         (onSaveCalls h) (errors h).
Definition set_onSaveCalls (n : nat) (h : Hook) : Hook :=
  mkHook (now h) (hstatus h) (timeoutRef h) (countdownIntervalRef h)
         (pendingChangesRef h) (timers h) (nextTimer h) (awaiting h)
         n (errors h).
Definition set_errors (e : list (string * string)) (h : Hook) : Hook :=
  mkHook (now h) (hstatus h) (timeoutRef h) (countdownIntervalRef h)
         (pendingChangesRef h) (timers h) (nextTimer h) (awaiting h)
         (onSaveCalls h) e.

(** The [delay] option, a whole number of milliseconds: 5000 unless given.
    The one delay the repository passes is the 5000 of page.tsx. *)
Definition delay_option (delay : option Z) : Z := default 5000 delay.

(** The hook at mount, at time [t0]. *)
Definition init (t0 : Z) : Hook :=
  mkHook t0 (mkStatus "idle" None 0) None None false ∅ 1%nat 0%nat 0%nat [].

(** *** The browser's timers *)

(** A handle is truthy unless it is 0. *)
Definition truthy_handle (id : nat) : bool := negb (Nat.eqb id 0).

(** ToInt32: the browser takes the delay of a timer as a signed integer of
    32 bits, wrapping around. *)
Definition toInt32 (n : Z) : Z := (n + 2 ^ 31) mod 2 ^ 32 - 2 ^ 31.

(** The time a timer set with [delay] waits: the delay as a 32-bit integer,
    a negative one counting as 0.  So a delay of 2^31 ms is no wait at all,
    and one of 2^32 + 5000 ms is a wait of 5000 ms. *)
Definition timer_delay (delay : Z) : Z := Z.max 0 (toInt32 delay).

(** [setTimeout(() => save(), delay)] *)
Definition setTimeout (delay : Z) (h : Hook) : nat * Hook :=
  let id := nextTimer h in
  (id, set_nextTimer (S id)
         (set_timers (<[id := SaveTimer (now h + timer_delay delay)]> (timers h))
            h)).

(** [setInterval(tick, 1000)], [tick] starting from [remainingSeconds]. *)
Definition setInterval (remainingSeconds : Z) (h : Hook) : nat * Hook :=
  let id := nextTimer h in
  (id, set_nextTimer (S id)
         (set_timers
            (<[id := CountdownTimer (now h + 1000) remainingSeconds]> (timers h))
            h)).

(** clearTimeout and clearInterval share one table of handles. *)
Definition clearTimer (id : nat) (h : Hook) : Hook :=
  set_timers (delete id (timers h)) h.

(** *** The hook's functions *)

Definition clearTimers (h : Hook) : Hook :=
  let h1 :=
    match timeoutRef h with
    | Some id =>
        if truthy_handle id then set_timeoutRef None (clearTimer id h) else h
    | None => h
    end in
  match countdownIntervalRef h1 with
  | Some id =>
      if truthy_handle id
      then set_countdownIntervalRef None (clearTimer id h1)
      else h1
  | None => h1
  end.

(** [Math.ceil(delay / 1000)] for a delay of whole milliseconds. *)
Definition ceil_seconds (delay : Z) : Z := (delay + 999) / 1000.

(** save, up to its [await onSave()]. *)
Definition save_begin (h : Hook) : Hook :=
  let h1 := clearTimers h in
  let h2 := setStatus (λ prev, mkStatus "saving" (lastSaved prev) 0) h1 in
  set_onSaveCalls (S (onSaveCalls h2)) (set_awaiting (S (awaiting h2)) h2).

(** save, after [onSave()] fulfilled. *)
Definition save_fulfilled (h : Hook) : Hook :=
  let h1 := setStatus (λ _, mkStatus "saved" (Some (now h)) 0) h in
  set_pendingChangesRef false h1.

(** save, after [onSave()] rejected with [error]: the catch block. *)
Definition save_rejected (error : string) (h : Hook) : Hook :=
  let h1 := set_errors (errors h ++ [("Autosave failed:", error)]) h in
  setStatus (λ prev, mkStatus "idle" (lastSaved prev) 0) h1.

Definition triggerAutosave (delay : Z) (h : Hook) : Hook :=
  let h1 := clearTimers h in
  let h2 := set_pendingChangesRef true h1 in
  let h3 := setStatus (λ prev, mkStatus "typing" (lastSaved prev)
                                 (ceil_seconds delay)) h2 in
  let '(interval, h4) := setInterval (ceil_seconds delay) h3 in
  let h5 := set_countdownIntervalRef (Some interval) h4 in
  let '(timeout, h6) := setTimeout delay h5 in
  set_timeoutRef (Some timeout) h6.

(** One run of the countdown callback of timer [id]; the browser arms the
    interval again for a second later. *)
Definition countdown_tick (id : nat) (remainingSeconds : Z) (h : Hook) : Hook :=
  let remainingSeconds := remainingSeconds - 1 in
  let h1 := set_timers
              (<[id := CountdownTimer (now h + 1000) remainingSeconds]> (timers h))
              h in
  let h2 := setStatus (λ prev, mkStatus (status prev) (lastSaved prev)
                                 remainingSeconds) h1 in
  if (remainingSeconds <=? 0)
     && match countdownIntervalRef h2 with
        | Some r => truthy_handle r
        | None => false
        end
  then
    match countdownIntervalRef h2 with
    | Some r => set_countdownIntervalRef None (clearTimer r h2)
    | None => h2
    end
  else h2.

(** The beforeunload listener. *)
Definition handleBeforeUnload (h : Hook) : Hook :=
  if pendingChangesRef h then set_onSaveCalls (S (onSaveCalls h)) h else h.

(** *** The hook under any component *)

(** What can happen to a mounted hook, one callback at a time.  Which of
    these follow which is up to the component that uses the hook: the
    effect has the dependency [onSave], so its cleanup runs at unmount and
    at every render that passes another [onSave] than the render before.
    [Home] below gives the sequences the page of this repository makes. *)
Inductive Event : Type :=
| Elapse (dt : Z)             (* time passes *)
| Edit                        (* the component calls triggerAutosave() *)
| Fire (id : nat)             (* the event loop runs the callback of a due timer *)
| Settle (r : option string)  (* an awaited onSave() fulfils, or rejects with an error *)
| CallSave                    (* the component calls the returned [save] *)
| Cleanup                     (* the effect's cleanup *)
| BeforeUnload.

Definition is_edit (e : Event) : bool :=
  match e with Edit => true | _ => false end.

(** [None]: the event cannot happen in this state.  A timer callback runs
    at its due time or later, never before. *)
Definition step (delay : Z) (e : Event) (h : Hook) : option Hook :=
  match e with
  | Elapse dt => if 0 <=? dt then Some (set_now (now h + dt) h) else None
  | Edit => Some (triggerAutosave delay h)
  | Fire id =>
      match timers h !! id with
      | Some (SaveTimer due) =>
          if due <=? now h then Some (save_begin (clearTimer id h)) else None
      | Some (CountdownTimer due remainingSeconds) =>
          if due <=? now h then Some (countdown_tick id remainingSeconds h)
          else None
      | None => None
      end
  | Settle r =>
      match awaiting h with
      | O => None
      | S n =>
          let h1 := set_awaiting n h in
          Some (match r with
                | None => save_fulfilled h1
                | Some error => save_rejected error h1
                end)
      end
  | CallSave => Some (save_begin h)
  | Cleanup => Some (clearTimers h)
  | BeforeUnload => Some (handleBeforeUnload h)
  end.

Fixpoint run (delay : Z) (evs : list Event) (h : Hook) : option Hook :=
  match evs with
  | [] => Some h
  | e :: rest =>
      match step delay e h with
      | Some h' => run delay rest h'
      | None => None
      end
  end.

(** The states the hook can be in under some component, [delay] fixed,
    mounted at [t0]. *)
Definition reachable (delay t0 : Z) (h : Hook) : Prop :=
  ∃ evs, run delay evs (init t0) = Some h.

End Autosave.
Import Autosave.

(* ===================================================================== *)
(** ** The component Home of src/app/page.tsx, around the hook           *)
(* ===================================================================== *)

Module Home.

(** [useAutosave({ delay: 5000, onSave: async () => { ... } })] *)
Definition delay : Z := delay_option (Some 5000).

(** What happens on the page. *)
Inductive PageEvent : Type :=
| EditorUpdate                      (* onUpdate of the editor: handleEditorUpdate *)
| Wait (dt : Z)                     (* time passes *)
| TimerDue (id : nat)               (* the event loop turns to the callback of a timer *)
| OnSaveSettled (r : option string) (* an onSave() awaited by save settles *)
| Rerender                          (* a render for another reason: setContent, setIsLoading *)
| Unload.                           (* beforeunload *)

(** A render of Home, as the hook sees it.  The [onSave] in the argument of
    useAutosave is a function expression, a new closure at every render, so
    the dependency of the effect has changed each time: React runs the
    cleanup of the effect of the render before (the listener is removed and
    clearTimers is called), then the effect again (the listener is added). *)
Definition render : list Event := [Cleanup].

(** An event of the page, in events of the hook.  handleEditorUpdate calls
    setEditor and triggerAutosave.  triggerAutosave, the countdown callback
    and save (at its start, and when onSave has settled) each call
    setStatus with a new object, so each is followed by a render; React
    commits it and runs the effects within a few ms, long before a timer of
    a second or more is due, and the model lets no time pass in between.
    Home does not take [save] from the hook: nothing on the page calls
    it. *)
Definition page_events (e : PageEvent) : list Event :=
  match e with
  | EditorUpdate => Edit :: render
  | Wait dt => [Elapse dt]
  | TimerDue id => Fire id :: render
  | OnSaveSettled r => Settle r :: render
  | Rerender => render
  | Unload => [BeforeUnload]
  end.

Definition page_step (e : PageEvent) (h : Hook) : option Hook :=
  run delay (page_events e) h.

(** The hook of the page after the events [evs]; [None] when one of them
    could not happen. *)
Fixpoint page_run (evs : list PageEvent) (h : Hook) : option Hook :=
  match evs with
  | [] => Some h
  | e :: rest =>
      match page_step e h with
      | Some h' => page_run rest h'
      | None => None
      end
  end.

End Home.
Import Home.

(* ===================================================================== *)
(** ** Vocabulary of the statements                                      *)
(* ===================================================================== *)

Local Open Scope list_scope.

(** The error of the first request to fail among the next [n] ones. *)
Fixpoint first_fault (n : nat) (fs : list (option string)) : option string :=
  match n, fs with
  | O, _ | _, [] => None
  | S n', None :: rest => first_fault n' rest
  | S _, Some e :: _ => Some e
  end.

(** A storage function makes one request on its store, after one more to
    open the database when no connection is cached. *)
Definition requests_needed (w : World) : nat :=
  if dbInstance w then 1%nat else 2%nat.

(** The storage failure a call made in [w] runs into, if any. *)
Definition storage_failure (w : World) : option string :=
  first_fault (requests_needed w) (faults w).

(** [doc?.content] for the record under the fixed key. *)
Definition stored_content (w : World) : json :=
  match documents w !! DOCUMENT_ID with
  | Some r => doc_content r
  | None => JUndefined
  end.

(** No request to come fails. *)
Definition no_faults (w : World) : Prop := Forall (λ f, f = None) (faults w).

(** *** Sample inputs *)

(** A browser profile that has never opened the page, every request to
    come succeeding. *)
Definition sample_world : World :=
  mkWorld false ∅ ∅ [] [] [] [1700000000000; 1700000000007] ["k3j9x0q2z"].

Definition sample_blob : Blob :=
  mkBlob "image/png" [Byte.x89; Byte.x50; Byte.x4e; Byte.x47].

(** An editor document: a heading and a paragraph. *)
Definition sample_doc : json :=
  JObj [("type", JStr "doc");
        ("content",
         JArr [JObj [("type", JStr "heading");
                     ("attrs", JObj [("level", JNum 1)]);
                     ("content", JArr [JObj [("type", JStr "text");
                                             ("text", JStr "Notes")]])];
               JObj [("type", JStr "paragraph")]])].

(** *** The document as a tree *)

(** The node at a path of child indices, through the content arrays. *)
Fixpoint node_at (path : list nat) (doc : json) : option json :=
  match path with
  | [] => Some doc
  | i :: rest =>
      match prop "content" doc with
      | JArr children => children !! i ≫= node_at rest
      | _ => None
      end
  end.

(** A node of type 'image' carrying an imageId. *)
Definition is_image_ref (n : json) : bool :=
  is_str "image" (prop "type" n)
  && truthy (opt_prop "imageId" (prop "attrs" n)).

(** The record a key finds in the 'images' store. *)
Definition lookup_image (imgs : gmap string ImageRecord) (k : json)
  : option ImageRecord :=
  match k with
  | JStr id => imgs !! id
  | _ => None
  end.

(** The stored record an image node refers to, if it refers to one. *)
Definition stored_image (imgs : gmap string ImageRecord) (n : json)
  : option ImageRecord :=
  if is_image_ref n
  then lookup_image imgs (prop "imageId" (prop "attrs" n))
  else None.

(** [{...n, attrs: {...n.attrs, src: url}}] *)
Definition with_src (n : json) (url : string) : json :=
  spread_with n "attrs" (spread_with (prop "attrs" n) "src" (JStr url)).

(** The nodes the walk gets to: the root, and the children of a node it
    got to that is not an image node with a stored blob. *)
Fixpoint walk_reaches (imgs : gmap string ImageRecord) (path : list nat)
  (doc : json) : option json :=
  match path with
  | [] => Some doc
  | i :: rest =>
      match stored_image imgs doc with
      | Some _ => None
      | None =>
          match prop "content" doc with
          | JArr children => children !! i ≫= walk_reaches imgs rest
          | _ => None
          end
      end
  end.

(** What the walk makes of a node, in a world [w]: an image node whose
    blob is stored gets the object URL of that blob as attrs.src and is not
    descended into; another node with a content array gets its children
    resolved; any other node is kept. *)
Inductive resolved (w : World) : json → json → Prop :=
| resolved_image n r url :
    stored_image (images w) n = Some r →
    url_displays w url (img_blob r) →
    resolved w n (with_src n url)
| resolved_children n children children' :
    stored_image (images w) n = None →
    prop "content" n = JArr children →
    Forall2 (resolved w) children children' →
    resolved w n (spread_with n "content" (JArr children'))
| resolved_leaf n :
    stored_image (images w) n = None →
    isArray (prop "content" n) = false →
    resolved w n n.

(** What a call may change of the world: the stores stay, object URLs are
    only added. *)
Definition extends (w w' : World) : Prop :=
  documents w' = documents w
  ∧ images w' = images w
  ∧ ∃ added, objectURLs w' = objectURLs w ++ added.

(** [a] as the first image of the store, under the key "a". *)
Definition one_image_world : World :=
  mkWorld true ∅ {["img-1-a" := mkImage "img-1-a" sample_blob 1]} [] [] [] [] [].

Definition image_ref (id : string) : json :=
  JObj [("type", JStr "image"); ("attrs", JObj [("imageId", JStr id)])].

(** Image nodes are leaves: no image node of [doc] that carries an imageId
    has a content array.  The image node of the editor's schema has no
    content, and the one writer of the document is
    [saveDocument(editor.getJSON())], so every stored document is such. *)
Definition leaf_images (doc : json) : Prop :=
  ∀ path n,
    node_at path doc = Some n →
    is_image_ref n = true →
    isArray (prop "content" n) = false.

(** The image node as the editor serialises it, with the attributes
    CustomImage declares in their order and null for those not given. *)
Definition editorImage (src imageId : json) : json :=
  JObj [("type", JStr "image");
        ("attrs", JObj [("src", src); ("alt", JNull); ("title", JNull);
                        ("imageId", imageId)])].

(** A document of the editor after the image of [imageData] was inserted
    below a paragraph. *)
Definition pasted_image_doc (imageData : string * string) : json :=
  JObj [("type", JStr "doc");
        ("content",
         JArr [JObj [("type", JStr "paragraph");
                     ("content", JArr [JObj [("type", JStr "text");
                                             ("text", JStr "Fig. 1")]])];
               editorImage (JStr imageData.2) (JStr imageData.1)])].

(** A document of the editor: a heading, the image of the store, a
    paragraph, and an image whose blob is gone. *)
Definition sample_image_doc : json :=
  JObj [("type", JStr "doc");
        ("content",
         JArr [JObj [("type", JStr "heading");
                     ("attrs", JObj [("level", JNum 1)]);
                     ("content", JArr [JObj [("type", JStr "text");
                                             ("text", JStr "Notes")]])];
               editorImage (JStr "blob:stale") (JStr "img-1-a");
               JObj [("type", JStr "paragraph")];
               editorImage (JStr "blob:gone") (JStr "img-7-gone")])].

(** The walk on [doc] fulfils in every world, within [extends], and makes
    of [doc] what [resolved] says when no request fails. *)
Definition walk_ok (doc : json) : Prop :=
  ∀ w, ∃ out w',
    resolveImageUrls doc w = (Ok out, w')
    ∧ extends w w'
    ∧ (no_faults w → no_faults w' ∧ resolved w' doc out).

(** *** Inline image data *)

(** A src that embeds the image itself: a data: URI. *)
Definition inline_data (v : json) : bool :=
  match v with
  | JStr s => String.prefix "data:" s
  | _ => false
  end.

(** An image node that refers to its image by identifier and carries no
    inline data. *)
Definition by_id_only (n : json) : bool :=
  truthy (prop "imageId" (prop "attrs" n))
  && negb (inline_data (prop "src" (prop "attrs" n))).

(** A document the editor holds after HTML with an embedded image was
    pasted into it: the image node has the attributes of the extension,
    src being the data: URI of the picture. *)
Definition inline_image_doc : json :=
  JObj [("type", JStr "doc");
        ("content",
         JArr [JObj [("type", JStr "image");
                     ("attrs",
                      JObj [("src", JStr "data:image/png;base64,iVBORw0KGgo=");
                            ("alt", JNull);
                            ("title", JNull);
                            ("imageId", JNull)])]])].

(** *** The autosave machine *)

Definition valid_status (s : string) : Prop :=
  s ∈ ["idle"; "typing"; "saving"; "saved"].

(** Every active timer is the one its ref holds, under a truthy handle. *)
Definition tracked (h : Hook) : Prop :=
  (∀ id due, timers h !! id = Some (SaveTimer due) → timeoutRef h = Some id)
  ∧ (∀ id due r, timers h !! id = Some (CountdownTimer due r) →
                 countdownIntervalRef h = Some id)
  ∧ timeoutRef h ≠ Some 0%nat
  ∧ countdownIntervalRef h ≠ Some 0%nat
  ∧ nextTimer h ≠ 0%nat.

(** *** The page around the hook *)

(** No timer is active and no save is awaited. *)
Definition nothing_scheduled (h : Hook) : Prop :=
  timers h = ∅
  ∧ timeoutRef h = None
  ∧ countdownIntervalRef h = None
  ∧ awaiting h = 0%nat.

(** An event of the page that is no callback of a timer and no settling of
    an awaited save. *)
Definition no_callback (e : PageEvent) : bool :=
  match e with
  | TimerDue _ | OnSaveSettled _ => false
  | _ => true
  end.

(** Whether the editor was updated in the course of [evs]. *)
Definition edited (evs : list PageEvent) : bool :=
  existsb (λ e, match e with EditorUpdate => true | _ => false end) evs.

(** How many unloads of [evs] came after an update of the editor, or with
    changes [pending] from before. *)
Fixpoint unload_saves (pending : bool) (evs : list PageEvent) : nat :=
  match evs with
  | [] => 0
  | EditorUpdate :: rest => unload_saves true rest
  | Unload :: rest => (if pending then 1 else 0) + unload_saves pending rest
  | _ :: rest => unload_saves pending rest
  end.

(** Two updates of the editor two seconds apart, then five quiet
    seconds. *)
Definition sample_page_events : list PageEvent :=
  [EditorUpdate; Wait 2000; EditorUpdate; Wait 5000].

(** What the indicator and the unload listener go by. *)
Definition shown (h : Hook) : string * Z * option Z * bool :=
  (status (hstatus h), countdown (hstatus h), lastSaved (hstatus h),
   pendingChangesRef h).

(* ===================================================================== *)
(** ** More of the code: callers and compositions                        *)
(* ===================================================================== *)

(** *** The calls a page can make on the storage layer *)

Inductive Op : Type :=
| OpSaveDocument (docJson : json)
| OpLoadDocument
| OpSaveImage (blob : Blob)
| OpLoadImage (imageId : json)
| OpGetAllImages
| OpDeleteImage (imageId : string)
| OpResolveImageUrls (content : json)
| OpLoadDoc
| OpOnSave (editor : option json)
| OpPaste (items : option (list Item))
| OpDrop (files : option (list Blob)).

(** The world a call leaves behind, whatever it returned. *)
Definition perform (op : Op) (w : World) : World :=
  match op with
  | OpSaveDocument d => (saveDocument d w).2
  | OpLoadDocument => (loadDocument w).2
  | OpSaveImage b => (saveImage b w).2
  | OpLoadImage k => (loadImage k w).2
  | OpGetAllImages => (getAllImages w).2
  | OpDeleteImage id => (deleteImage id w).2
  | OpResolveImageUrls c => (resolveImageUrls c w).2
  | OpLoadDoc => (loadDoc w).2
  | OpOnSave e => (onSave e w).2
  | OpPaste items => (handleImagePaste items w).2
  | OpDrop files => (handleImageDrop files w).2
  end.

Definition perform_all (ops : list Op) (w : World) : World :=
  foldl (λ w op, perform op w) w ops.

(** The shape of the two stores: at most the one document, under its own
    id; every image under its own id, an 'img-' identifier. *)
Definition store_wf (w : World) : Prop :=
  (∀ k r, documents w !! k = Some r → k = DOCUMENT_ID ∧ doc_id r = DOCUMENT_ID)
  ∧ (∀ k r, images w !! k = Some r →
            img_id r = k ∧ ∃ rest, k = "img-" +:+ rest).

(** A computation that keeps the shape of the stores and a cached
    connection, however it ends. *)
Definition keeps {A} (m : M A) : Prop :=
  ∀ w, (store_wf w → store_wf (m w).2)
       ∧ (dbInstance w = true → dbInstance (m w).2 = true).

(** A reload of the page: the module starts over without a connection, the
    object URLs of the old page are gone and the console is empty; the
    stores stay. *)
Definition reload (w : World) : World :=
  mkWorld false (documents w) (images w) [] [] (faults w) (clock w) (random w).

(** The six exported functions of storage.ts among the calls, loadImage
    with the string key its signature asks for. *)
Definition storage_function (op : Op) : bool :=
  match op with
  | OpSaveDocument _ | OpLoadDocument | OpSaveImage _ | OpGetAllImages
  | OpDeleteImage _ | OpLoadImage (JStr _) => true
  | _ => false
  end.

(** Two images, saved in the order "img-20-b", "img-10-a". *)
Definition two_images_world : World :=
  perform_all [OpSaveImage sample_blob; OpSaveImage (mkBlob "image/gif" [])]
    (mkWorld false ∅ ∅ [] [] [] [20; 21; 10; 11] ["b"; "a"]).

(** *** components/Editor.tsx and the content state of the page *)

(** The document the editor starts with when it is given no content. *)
Definition defaultContent : json :=
  JObj [("type", JStr "doc");
        ("content",
         JArr [JObj [("type", JStr "heading");
                     ("attrs", JObj [("level", JNum 1)]);
                     ("content",
                      JArr [JObj [("type", JStr "text");
                                  ("text", JStr "Welcome to Notes")]])];
               JObj [("type", JStr "paragraph");
                     ("content",
                      JArr [JObj [("type", JStr "text");
                                  ("text",
                                   JStr "Start typing to create your document. All changes are automatically saved.")]])]])].

(** The [content] option of useEditor: [content || { ... }]. *)
Definition editorContent (content : json) : json :=
  if truthy content then content else defaultContent.

(** The state variable [content] of the page once loadDoc is through: null
    from useState unless setContent was called. *)
Definition pageContent (loaded : option json) : json :=
  match loaded with
  | Some resolvedContent => resolvedContent
  | None => JNull
  end.

(** *** Items the handlers pass over *)

(** A clipboard item the paste loop skips: not of an image type, or without
    a file. *)
Definition skipped_item (item : Item) : bool :=
  negb (mentions_image (item_type item))
  || match getAsFile item with Some _ => false | None => true end.

(** A dropped file the drop loop skips. *)
Definition skipped_file (file : Blob) : bool :=
  negb (mentions_image (blob_type file)).

(** *** AutosaveIndicator of src/hooks/useAutosave.tsx *)

Module Indicator.
Section Indicator.

(** [date.toLocaleTimeString('en-US', { hour: '2-digit', minute: '2-digit',
    second: '2-digit', hour12: false })], which depends on the time zone of
    the browser. *)
Variable toLocaleTimeString : Z → string.

Definition formatTime (date : option Z) : string :=
  match date with
  | None => ""
  | Some d => toLocaleTimeString d
  end.

Definition getStatusText (s : AutosaveStatus) : string :=
  if String.eqb (status s) "typing" then
    "Typing... autosave in " +:+ pretty (countdown s) +:+ "s"
  else if String.eqb (status s) "saving" then "Saving..."
  else if String.eqb (status s) "saved" then
    match lastSaved s with
    | Some _ => "Saved at " +:+ formatTime (lastSaved s)
    | None => "All changes saved"
    end
  else "All changes saved".

Definition getStatusColor (s : AutosaveStatus) : string :=
  if String.eqb (status s) "typing" then "text-yellow-600"
  else if String.eqb (status s) "saving" then "text-blue-600"
  else if String.eqb (status s) "saved" then "text-green-600"
  else "text-gray-600".

End Indicator.
End Indicator.
Import Indicator.

(** *** Counting over the events *)

(** The events that can lead to a call of onSave: an edit through its
    timer, a call of save, the unload of the page. *)
Definition may_save (e : Event) : bool :=
  match e with
  | Edit | CallSave | BeforeUnload => true
  | _ => false
  end.

(** Whether an edit came after the last save that fulfilled. *)
Definition edited_since_saved (evs : list Event) : bool :=
  foldl (λ pending e,
           match e with
           | Edit => true
           | Settle None => false
           | _ => pending
           end) false evs.

(** What is kept of the displayed status, for a hook mounted at [t0]. *)
Definition display_ok (delay t0 : Z) (h : Hook) : Prop :=
  0 ≤ countdown (hstatus h) ≤ ceil_seconds delay
  ∧ (∀ id due rem, timers h !! id = Some (CountdownTimer due rem) →
                   1 ≤ rem ≤ ceil_seconds delay)
  ∧ (status (hstatus h) = "saved" → lastSaved (hstatus h) ≠ None)
  ∧ (∀ t, lastSaved (hstatus h) = Some t → t0 ≤ t ≤ now h)
  ∧ t0 ≤ now h.

(** 1 when timeoutRef holds a handle, 0 when it is null. *)
Definition pending_timer (h : Hook) : nat :=
  match timeoutRef h with Some _ => 1 | None => 0 end.

(* ===================================================================== *)
(** ** The storage layer                                                 *)
(* ===================================================================== *)

Ltac storage_unfold :=
  cbv [saveDocument loadDocument saveImage loadImage getAllImages deleteImage
       getDB request bind ret throw try_catch console_error Date_now
       random_suffix createObjectURL db_put_documents db_get_documents
       db_put_images db_get_images db_getAllKeys_images db_delete_images
       onSave
       set_dbInstance set_documents set_images set_objectURLs set_console
       set_faults set_clock set_random
       dbInstance documents images objectURLs console faults clock random
       storage_failure requests_needed first_fault] in *.

Ltac world_cases w :=
  let dbi := fresh "dbi" in
  let fs := fresh "fs" in
  let clk := fresh "clk" in
  let rnd := fresh "rnd" in
  destruct w as [dbi ? ? ? ? fs clk rnd];
  destruct dbi; destruct fs as [|[?|] [|[?|] fs]];
  destruct clk as [|? [|? clk]]; destruct rnd as [|? rnd].

Example first_load_is_null : (loadDocument sample_world).1 = Ok JNull.
Proof. vm_compute. reflexivity. Qed.

Example failed_open_is_logged :
  let w := mkWorld false ∅ ∅ [] [] [Some "InvalidStateError"] [] [] in
  (loadDocument w).1 = Ok JNull
  ∧ console (loadDocument w).2
    = [("Failed to load document:", "InvalidStateError")]
  ∧ (saveDocument sample_doc w).1 = Throw "InvalidStateError".
Proof. vm_compute. done. Qed.

Example image_id_format :
  (saveImage sample_blob sample_world).1 = Ok "img-1700000000000-k3j9x0q2z".
Proof. vm_compute. reflexivity. Qed.

(** C10.  The error surface of the storage layer is asymmetric.  When a
    call runs into a storage failure [e], each read (loadDocument,
    loadImage, getAllImages) logs it and fulfils with its fallback value
    (null, null, the empty list), while each write (saveDocument,
    saveImage, deleteImage) logs it and rejects with [e] itself; in both
    cases the stores are left as they were.  Without a failure all six
    fulfil and log nothing. *)
Theorem storage_error_surface (w : World) (d : json) (b : Blob) (id : string) :
  match storage_failure w with
  | Some e =>
      (∃ w', loadDocument w = (Ok JNull, w')
             ∧ console w' = console w ++ [("Failed to load document:", e)]
             ∧ documents w' = documents w ∧ images w' = images w)
      ∧ (∃ w', loadImage (JStr id) w = (Ok None, w')
               ∧ console w' = console w ++ [("Failed to load image:", e)]
               ∧ documents w' = documents w ∧ images w' = images w)
      ∧ (∃ w', getAllImages w = (Ok [], w')
               ∧ console w' = console w ++ [("Failed to get all images:", e)]
               ∧ documents w' = documents w ∧ images w' = images w)
      ∧ (∃ w', saveDocument d w = (Throw e, w')
               ∧ console w' = console w ++ [("Failed to save document:", e)]
               ∧ documents w' = documents w ∧ images w' = images w)
      ∧ (∃ w', saveImage b w = (Throw e, w')
               ∧ console w' = console w ++ [("Failed to save image:", e)]
               ∧ documents w' = documents w ∧ images w' = images w)
      ∧ (∃ w', deleteImage id w = (Throw e, w')
               ∧ console w' = console w ++ [("Failed to delete image:", e)]
               ∧ documents w' = documents w ∧ images w' = images w)
  | None =>
      (∃ v w', loadDocument w = (Ok v, w') ∧ console w' = console w)
      ∧ (∃ v w', loadImage (JStr id) w = (Ok v, w') ∧ console w' = console w)
      ∧ (∃ v w', getAllImages w = (Ok v, w') ∧ console w' = console w)
      ∧ (∃ w', saveDocument d w = (Ok tt, w') ∧ console w' = console w)
      ∧ (∃ v w', saveImage b w = (Ok v, w') ∧ console w' = console w)
      ∧ (∃ w', deleteImage id w = (Ok tt, w') ∧ console w' = console w)
  end.
Proof.
  world_cases w; storage_unfold; cbn [validKey];
    repeat match goal with
           | |- context [match ?m !! ?k with _ => _ end] => destruct (m !! k)
           | |- _ ∧ _ => split
           | |- ∃ _, _ => eexists
           end; reflexivity.
Qed.

Lemma blobURL_nonempty (n : nat) : blobURL n ≠ "".
Proof. unfold blobURL. cbn [String.append]. discriminate. Qed.

Lemma blobURL_inj (n m : nat) : blobURL n = blobURL m → n = m.
Proof.
  unfold blobURL. intros H.
  apply (inj (String.append "blob:")) in H. by apply (inj pretty) in H.
Qed.

(** An object URL displays one blob only. *)
Lemma url_displays_functional (w : World) (url : string) (b1 b2 : Blob) :
  url_displays w url b1 → url_displays w url b2 → b1 = b2.
Proof.
  intros (n & -> & H1) (m & Heq & H2).
  apply blobURL_inj in Heq as ->. congruence.
Qed.

(** loadDocument in one equation: null after a storage failure, else the
    stored content or null in its place when it is falsy. *)
Lemma loadDocument_spec (w : World) :
  ∃ w', loadDocument w
        = (Ok match storage_failure w with
              | Some _ => JNull
              | None => if truthy (stored_content w)
                        then stored_content w else JNull
              end, w')
        ∧ documents w' = documents w ∧ images w' = images w.
Proof.
  unfold stored_content.
  world_cases w; storage_unfold; eexists; split; reflexivity || done.
Qed.

(** A successful saveDocument, spelled out. *)
Lemma saveDocument_stored (w w1 : World) (d : json) :
  saveDocument d w = (Ok tt, w1) →
  ∃ t, documents w1 = <[DOCUMENT_ID := mkDoc DOCUMENT_ID d t]> (documents w)
       ∧ images w1 = images w
       ∧ stored_content w1 = d.
Proof.
  intros Hsave. unfold stored_content.
  world_cases w; storage_unfold; simplify_eq; eexists;
    (split; [reflexivity|]); (split; [reflexivity|]);
    cbn; by rewrite lookup_insert_eq.
Qed.

(** C3.  saveDocument writes the record of [d] under the fixed key
    'main-document' and touches no other key and no image; a later
    loadDocument that yields a document at all (a result other than null)
    yields exactly [d], and it does yield [d] whenever [d] is truthy, as
    every editor document is, and the load meets no storage failure. *)
Theorem document_round_trip (w w1 : World) (d : json) :
  saveDocument d w = (Ok tt, w1) →
  (∃ t, documents w1 = <[DOCUMENT_ID := mkDoc DOCUMENT_ID d t]> (documents w))
  ∧ images w1 = images w
  ∧ (∀ v w2, loadDocument w1 = (Ok v, w2) → v ≠ JNull → v = d)
  ∧ (truthy d = true → storage_failure w1 = None →
     ∃ w2, loadDocument w1 = (Ok d, w2)).
Proof.
  intros Hsave.
  destruct (saveDocument_stored w w1 d Hsave) as (t & Hdocs & Himgs & Hd).
  destruct (loadDocument_spec w1) as (w2 & Hload & _).
  rewrite Hd in Hload.
  split; [by exists t|]. split; [done|]. split.
  - intros v w2' Hv Hnonnull. rewrite Hload in Hv.
    destruct (storage_failure w1), (truthy d); by simplify_eq.
  - intros Ht Hf. rewrite Hf, Ht in Hload. by exists w2.
Qed.

Lemma document_round_trip_witness :
  let w1 := (saveDocument sample_doc sample_world).2 in
  saveDocument sample_doc sample_world = (Ok tt, w1)
  ∧ (∀ v w2, loadDocument w1 = (Ok v, w2) → v ≠ JNull → v = sample_doc)
  ∧ ∃ w2, loadDocument w1 = (Ok sample_doc, w2).
Proof.
  intros w1.
  assert (saveDocument sample_doc sample_world = (Ok tt, w1)) as Hsave
    by (vm_compute; reflexivity).
  split; [exact Hsave|].
  destruct (document_round_trip sample_world w1 sample_doc Hsave)
    as (_ & _ & Hnonnull & Hload).
  split; [exact Hnonnull|].
  apply Hload; vm_compute; reflexivity.
Defined.

(** C9.  loadDocument answers null both when no record is stored under the
    fixed key ([w0]) and when the stored record's content is falsy ([w1]):
    null itself, the empty string, 0 and false are such contents.  The two
    answers are the same, so the caller cannot tell a saved falsy document
    from an absent one. *)
Theorem loadDocument_null_absent_or_falsy (w0 w1 : World) (r : DocRecord) :
  documents w0 !! DOCUMENT_ID = None →
  documents w1 !! DOCUMENT_ID = Some r →
  truthy (doc_content r) = false →
  (loadDocument w0).1 = Ok JNull
  ∧ (loadDocument w1).1 = Ok JNull
  ∧ Forall (λ v, truthy v = false) [JNull; JStr ""; JNum 0; JBool false].
Proof.
  intros Habsent Hstored Hfalsy.
  destruct (loadDocument_spec w0) as (w0' & Hload0 & _).
  destruct (loadDocument_spec w1) as (w1' & Hload1 & _).
  unfold stored_content in Hload0, Hload1.
  rewrite Habsent in Hload0. rewrite Hstored, Hfalsy in Hload1.
  rewrite Hload0, Hload1. cbn [fst truthy].
  split; [by destruct (storage_failure w0)|].
  split; [by destruct (storage_failure w1)|].
  repeat constructor.
Qed.

Lemma loadDocument_null_absent_or_falsy_witness :
  let w1 := (saveDocument (JNum 0) sample_world).2 in
  (loadDocument sample_world).1 = Ok JNull
  ∧ (loadDocument w1).1 = Ok JNull
  ∧ documents w1 !! DOCUMENT_ID = Some (mkDoc DOCUMENT_ID (JNum 0) 1700000000000).
Proof.
  intros w1.
  assert (documents w1 !! DOCUMENT_ID
          = Some (mkDoc DOCUMENT_ID (JNum 0) 1700000000000)) as Hstored
    by (vm_compute; reflexivity).
  destruct (loadDocument_null_absent_or_falsy sample_world w1 _
              eq_refl Hstored eq_refl) as (H0 & H1 & _).
  exact (conj H0 (conj H1 Hstored)).
Defined.

(** A falsy document is stored all the same: saving it succeeds and the
    record holds it, although loadDocument will not give it back. *)
Lemma saveDocument_stores_falsy (w w1 : World) (d : json) :
  truthy d = false →
  saveDocument d w = (Ok tt, w1) →
  (∃ r, documents w1 !! DOCUMENT_ID = Some r ∧ doc_content r = d)
  ∧ (loadDocument w1).1 = Ok JNull.
Proof.
  intros Hfalsy Hsave.
  destruct (saveDocument_stored w w1 d Hsave) as (t & Hdocs & _ & Hd).
  split.
  - exists (mkDoc DOCUMENT_ID d t). by rewrite Hdocs, lookup_insert_eq.
  - destruct (loadDocument_spec w1) as (w2 & -> & _).
    rewrite Hd, Hfalsy. by destruct (storage_failure w1).
Qed.

(** A successful saveImage, spelled out. *)
Lemma saveImage_stored (w w1 : World) (b : Blob) (id : string) :
  saveImage b w = (Ok id, w1) →
  ∃ fs',
    id = "img-" +:+ pretty (default 0 (clock w !! 0%nat)) +:+ "-"
         +:+ default "" (random w !! 0%nat)
    ∧ w1 = mkWorld true (documents w)
             (<[id := mkImage id b (default 0 (clock w !! 1%nat))]> (images w))
             (objectURLs w) (console w) fs'
             (drop 2 (clock w)) (tail (random w)).
Proof.
  intros Hsave.
  world_cases w; storage_unfold; simplify_eq; eexists; split; reflexivity.
Qed.

(** C6.  saveImage writes one record to the 'images' store: the identifier
    'img-<timestamp>-<random>' it generated, the blob, and a creation
    timestamp; the 'documents' store is not touched.  It returns that
    identifier, and loadImage on it, when it meets no storage failure,
    returns a non-empty object URL that displays the blob. *)
Theorem image_record_round_trip (w w1 : World) (b : Blob) (id : string) :
  saveImage b w = (Ok id, w1) →
  id = "img-" +:+ pretty (default 0 (clock w !! 0%nat)) +:+ "-"
       +:+ default "" (random w !! 0%nat)
  ∧ images w1
    = <[id := mkImage id b (default 0 (clock w !! 1%nat))]> (images w)
  ∧ documents w1 = documents w
  ∧ (storage_failure w1 = None →
     ∃ url w2, loadImage (JStr id) w1 = (Ok (Some url), w2)
               ∧ url ≠ ""
               ∧ url_displays w2 url b
               ∧ images w2 = images w1 ∧ documents w2 = documents w1).
Proof.
  intros Hsave.
  destruct (saveImage_stored w w1 b id Hsave) as (fs' & Hid & ->).
  split; [exact Hid|]. split; [done|]. split; [done|].
  intros Hf.
  assert (∀ us fs'',
            url_displays
              (mkWorld true (documents w)
                 (<[id := mkImage id b (default 0 (clock w !! 1%nat))]> (images w))
                 (us ++ [b]) (console w) fs'' (drop 2 (clock w))
                 (tail (random w)))
              (blobURL (length us)) b) as Hdisp.
  { intros us fs''. exists (length us). split; [done|].
    cbn [objectURLs]. by rewrite list_lookup_middle. }
  destruct fs' as [|[e|] fs']; storage_unfold; cbn [validKey];
    try discriminate; rewrite lookup_insert_eq; cbn [img_blob];
    (do 2 eexists; split; [reflexivity|];
     split; [apply blobURL_nonempty|]; split; [apply Hdisp|]; done).
Qed.

Lemma image_record_round_trip_witness :
  let r := saveImage sample_blob sample_world in
  r.1 = Ok "img-1700000000000-k3j9x0q2z"
  ∧ ∃ url w2, loadImage (JStr "img-1700000000000-k3j9x0q2z") r.2
              = (Ok (Some url), w2)
              ∧ url_displays w2 url sample_blob.
Proof.
  intros r.
  assert (saveImage sample_blob sample_world
          = (Ok "img-1700000000000-k3j9x0q2z", r.2)) as Hsave
    by (vm_compute; reflexivity).
  split; [subst r; by rewrite Hsave|].
  destruct (image_record_round_trip _ _ _ _ Hsave) as (_ & _ & _ & Hload).
  destruct Hload as (url & w2 & H1 & _ & H2 & _); [vm_compute; reflexivity|].
  by exists url, w2.
Defined.

(* ===================================================================== *)
(** ** The image resolution pass                                         *)
(* ===================================================================== *)

Example resolve_sets_src :
  (resolveImageUrls (image_ref "img-1-a") one_image_world).1
  = Ok (JObj [("type", JStr "image");
              ("attrs", JObj [("imageId", JStr "img-1-a");
                              ("src", JStr "blob:0")])]).
Proof. vm_compute. reflexivity. Qed.

Example resolve_keeps_text :
  (resolveImageUrls sample_doc one_image_world).1 = Ok sample_doc.
Proof. vm_compute. reflexivity. Qed.

Lemma assoc_get_set_eq (k : string) (v : json) (fs : list (string * json)) :
  assoc_get k (assoc_set k v fs) = Some v.
Proof.
  induction fs as [|[k' v'] fs IH]; cbn.
  - by rewrite String.eqb_refl.
  - destruct (String.eqb k k') eqn:E; cbn; rewrite ?String.eqb_refl, ?E; done.
Qed.

Lemma assoc_get_set_ne (k k' : string) (v : json) (fs : list (string * json)) :
  k ≠ k' → assoc_get k' (assoc_set k v fs) = assoc_get k' fs.
Proof.
  intros Hne.
  assert (String.eqb k' k = false) as Hk by (apply String.eqb_neq; congruence).
  induction fs as [|[k0 v0] fs IH]; cbn.
  - by rewrite Hk.
  - destruct (String.eqb k k0) eqn:E; cbn.
    + apply String.eqb_eq in E as <-. by rewrite Hk.
    + by rewrite IH.
Qed.

Lemma prop_spread_eq (o : json) (k : string) (v : json) :
  prop k (spread_with o k v) = v.
Proof.
  destruct o; cbn; rewrite ?String.eqb_refl; try done.
  by rewrite assoc_get_set_eq.
Qed.

Lemma prop_spread_ne (fs : list (string * json)) (k k' : string) (v : json) :
  k ≠ k' → prop k' (spread_with (JObj fs) k v) = prop k' (JObj fs).
Proof. intros Hne. cbn. by rewrite assoc_get_set_ne. Qed.

(** Assigning a property its own value changes nothing. *)
Lemma assoc_set_same (k : string) (v : json) (fs : list (string * json)) :
  assoc_get k fs = Some v → assoc_set k v fs = fs.
Proof.
  induction fs as [|[k' v'] fs IH]; cbn; [done|].
  destruct (String.eqb k k') eqn:E.
  - apply String.eqb_eq in E as ->. by intros [= ->].
  - intros H. by rewrite IH.
Qed.

(** resolveImageUrls in the shape of the source. *)
Lemma resolveImageUrls_unfold (content : json) (w : World) :
  resolveImageUrls content w
  = (if negb (truthy content) then ret content
     else
       bind (resolveImageNode content)
         (λ early,
            match early with
            | Some resolved => ret resolved
            | None =>
                match prop "content" content with
                | JArr children =>
                    bind (mapM resolveImageUrls children)
                      (λ resolvedChildren,
                         ret (spread_with content "content"
                                (JArr resolvedChildren)))
                | _ => ret content
                end
            end)) w.
Proof.
  destruct content as [| |b|z|s|l|fs]; try reflexivity.
  cbn [resolveImageUrls truthy negb prop].
  unfold bind. destruct (resolveImageNode (JObj fs) w) as [[[r|]|e] w1]; try done.
  generalize (JObj fs) as whole. intros whole.
  induction fs as [|[k v] fs IH]; [done|].
  cbn [assoc_get]. destruct (String.eqb "content" k); [|exact IH].
  cbn [default]. destruct v; reflexivity.
Qed.

Ltac no_faults_cases :=
  unfold no_faults in *; cbn [faults] in *;
  repeat match goal with
         | H : Forall _ (_ :: _) |- _ => apply Forall_cons in H as [? H]
         end;
  simplify_eq.

(** loadImage never rejects and never touches the stores; it mints an
    object URL exactly when it returns one, for the blob stored under the
    key.  When no request fails it returns null only for a key that finds
    nothing. *)
Lemma loadImage_spec (k : json) (w : World) :
  ∃ r w', loadImage k w = (Ok r, w')
          ∧ documents w' = documents w ∧ images w' = images w
          ∧ match r with
            | Some url =>
                ∃ rec, lookup_image (images w) k = Some rec
                       ∧ url = blobURL (length (objectURLs w))
                       ∧ objectURLs w' = objectURLs w ++ [img_blob rec]
            | None => objectURLs w' = objectURLs w
            end
          ∧ (no_faults w →
             no_faults w' ∧ (r = None → lookup_image (images w) k = None)).
Proof.
  destruct (validKey k) eqn:Hk.
  - world_cases w; storage_unfold; rewrite ?Hk;
      try (do 2 eexists; split; [reflexivity|]; cbn;
           repeat split; try done; intros; no_faults_cases; done);
      (destruct k; try discriminate Hk; cbn [lookup_image];
       try (do 2 eexists; split; [reflexivity|]; cbn;
            repeat split; try done; intros; no_faults_cases;
            repeat constructor; done);
       match goal with
       | |- context [?m !! ?s] => destruct (m !! s) as [rec|] eqn:Hrec
       end;
       do 2 eexists; (split; [reflexivity|]); cbn;
       repeat split; try done; try (by eexists);
       intros; no_faults_cases; repeat constructor; done).
  - assert (lookup_image (images w) k = None) as Hnone.
    { destruct k; try done. }
    world_cases w; storage_unfold; rewrite ?Hk;
      do 2 eexists; (split; [reflexivity|]); cbn;
      repeat split; try done; intros; no_faults_cases; repeat constructor; done.
Qed.

Lemma extends_refl (w : World) : extends w w.
Proof. repeat split. exists []. by rewrite app_nil_r. Qed.

Lemma extends_trans (w1 w2 w3 : World) :
  extends w1 w2 → extends w2 w3 → extends w1 w3.
Proof.
  intros (Hd1 & Hi1 & u1 & Hu1) (Hd2 & Hi2 & u2 & Hu2).
  repeat split; [congruence..|].
  exists (u1 ++ u2). by rewrite Hu2, Hu1, app_assoc.
Qed.

Lemma url_displays_extends (w w' : World) (url : string) (b : Blob) :
  extends w w' → url_displays w url b → url_displays w' url b.
Proof.
  intros (_ & _ & added & Hu) (n & -> & Hn).
  exists n. split; [done|]. rewrite Hu. by apply lookup_app_l_Some.
Qed.

Lemma resolved_extends (w w' : World) :
  extends w w' → ∀ n out, resolved w n out → resolved w' n out.
Proof.
  intros Hext. fix IH 3. intros n out H.
  destruct H as [n r url Hs Hd|n children children' Hs Hc Hch|n Hs Hc].
  - apply resolved_image with r.
    + by rewrite (proj1 (proj2 Hext)).
    + by eapply url_displays_extends.
  - apply resolved_children with children;
      [by rewrite (proj1 (proj2 Hext))|done|].
    clear Hc. induction Hch; constructor; auto.
  - apply resolved_leaf; [by rewrite (proj1 (proj2 Hext))|done].
Qed.

Lemma resolveImageNode_spec (n : json) (w : World) :
  ∃ r w', resolveImageNode n w = (Ok r, w')
          ∧ extends w w'
          ∧ match r with
            | Some out =>
                ∃ rec url, stored_image (images w) n = Some rec
                           ∧ out = with_src n url
                           ∧ url_displays w' url (img_blob rec)
            | None => objectURLs w' = objectURLs w
            end
          ∧ (no_faults w →
             no_faults w' ∧ (r = None → stored_image (images w) n = None)).
Proof.
  unfold resolveImageNode, stored_image, is_image_ref.
  destruct (is_str "image" (prop "type" n)
            && truthy (opt_prop "imageId" (prop "attrs" n))).
  - destruct (loadImage_spec (prop "imageId" (prop "attrs" n)) w)
      as (r & w' & Hload & Hd & Hi & Hr & Hnf).
    unfold bind. rewrite Hload.
    destruct r as [url|].
    + destruct Hr as (rec & Hrec & -> & Hu).
      assert (truthy (JStr (blobURL (length (objectURLs w)))) = true) as Ht.
      { cbn. destruct (String.eqb_spec (blobURL (length (objectURLs w))) "")
          as [E|E]; [by apply blobURL_nonempty in E|done]. }
      rewrite Ht. exists (Some (with_src n (blobURL (length (objectURLs w))))), w'.
      split; [done|]. split; [repeat split; eauto|].
      split.
      * exists rec, (blobURL (length (objectURLs w))).
        repeat split; [done|]. exists (length (objectURLs w)).
        split; [done|]. rewrite Hu. by rewrite list_lookup_middle.
      * intros Hw. split; [by apply Hnf|done].
    + exists None, w'. split; [done|].
      split; [repeat split; try done; exists []; by rewrite app_nil_r|].
      split; [done|]. intros Hw. destruct (Hnf Hw) as [? Hnone]. auto.
  - exists None, w. split; [done|]. split; [apply extends_refl|].
    split; [done|]. auto.
Qed.

Lemma mapM_cons {A B} (f : A → M B) (x : A) (l : list A) (w : World) :
  mapM f (x :: l) w
  = bind (f x) (λ y, bind (mapM f l) (λ ys, ret (y :: ys))) w.
Proof. reflexivity. Qed.

Lemma mapM_walk (l : list json) :
  Forall walk_ok l →
  ∀ w, ∃ outs w',
    mapM resolveImageUrls l w = (Ok outs, w')
    ∧ extends w w'
    ∧ (no_faults w → no_faults w' ∧ Forall2 (resolved w') l outs).
Proof.
  induction 1 as [|x l Hx Hl IH]; intros w.
  - exists [], w. split; [done|]. split; [apply extends_refl|]. auto.
  - destruct (Hx w) as (y & w1 & Hy & Hext1 & Hnf1).
    destruct (IH w1) as (ys & w2 & Hys & Hext2 & Hnf2).
    exists (y :: ys), w2. rewrite mapM_cons. unfold bind. rewrite Hy, Hys.
    split; [done|].
    split; [by eapply extends_trans|].
    intros Hw. destruct (Hnf1 Hw) as [Hw1 Hr1].
    destruct (Hnf2 Hw1) as [Hw2 Hr2]. split; [done|].
    constructor; [by eapply resolved_extends|done].
Qed.

Lemma falsy_is_leaf (doc : json) (imgs : gmap string ImageRecord) :
  truthy doc = false →
  stored_image imgs doc = None ∧ prop "content" doc = JUndefined.
Proof. destruct doc; try done. Qed.

Lemma walk_ok_intro (doc : json) :
  (∀ l, prop "content" doc = JArr l → Forall walk_ok l) → walk_ok doc.
Proof.
  intros Hchildren w. rewrite resolveImageUrls_unfold.
  destruct (truthy doc) eqn:Ht; cbn [negb].
  2:{ exists doc, w. split; [done|]. split; [apply extends_refl|].
      intros Hw. split; [done|].
      destruct (falsy_is_leaf doc (images w) Ht) as [Hs Hc].
      apply resolved_leaf; [done|by rewrite Hc]. }
  destruct (resolveImageNode_spec doc w) as (r & w1 & Hnode & Hext1 & Hr & Hnf1).
  unfold bind at 1. rewrite Hnode.
  destruct r as [out|].
  - destruct Hr as (rec & url & Hs & -> & Hd).
    exists (with_src doc url), w1. split; [done|]. split; [done|].
    intros Hw. split; [by apply Hnf1|].
    apply resolved_image with rec; [|done].
    by rewrite (proj1 (proj2 Hext1)).
  - destruct (prop "content" doc) as [| | | | |l|] eqn:Hc;
      try (exists doc, w1; split; [done|]; split; [done|];
           intros Hw; destruct (Hnf1 Hw) as [Hw1 Hnone];
           split; [done|];
           apply resolved_leaf;
           [rewrite (proj1 (proj2 Hext1)); auto|by rewrite Hc]).
    destruct (mapM_walk l (Hchildren l eq_refl) w1)
      as (outs & w2 & Hmap & Hext2 & Hnf2).
    unfold bind. rewrite Hmap.
    exists (spread_with doc "content" (JArr outs)), w2.
    split; [done|]. split; [by eapply extends_trans|].
    intros Hw. destruct (Hnf1 Hw) as [Hw1 Hnone].
    destruct (Hnf2 Hw1) as [Hw2 Hres]. split; [done|].
    apply resolved_children with l; [|done|done].
    rewrite (proj1 (proj2 Hext2)), (proj1 (proj2 Hext1)). auto.
Qed.

Lemma assoc_get_Forall (P : json → Prop) (k : string) (v : json)
  (fs : list (string * json)) :
  Forall (λ kv, P kv.2) fs → assoc_get k fs = Some v → P v.
Proof.
  induction 1 as [|[k' v'] fs Hx Hfs IH]; cbn; [done|].
  destruct (String.eqb k k'); [by intros [= <-]|done].
Qed.

(** The walk fulfils on every value, whatever the requests do. *)
Lemma resolveImageUrls_walk_ok (doc : json) : walk_ok doc.
Proof.
  enough (walk_ok doc ∧ ∀ l, doc = JArr l → Forall walk_ok l) by tauto.
  induction doc as [| |b|z|s|l IH|fs IH] using json_nested_ind;
    try (split; [apply walk_ok_intro; intros l; cbn; discriminate
                |intros l; discriminate]).
  - split; [apply walk_ok_intro; intros l'; cbn; discriminate|].
    intros l' [= <-]. eapply Forall_impl; [exact IH|]. cbn. tauto.
  - split; [|discriminate].
    apply walk_ok_intro. intros l Hl. cbn in Hl.
    destruct (assoc_get "content" fs) as [v|] eqn:Hv; [|discriminate].
    cbn in Hl. subst v.
    by apply (assoc_get_Forall
                (λ v, walk_ok v ∧ ∀ l, v = JArr l → Forall walk_ok l)
                _ _ _ IH Hv).
Qed.

(** Loading the page: loadDoc fulfils whatever the requests do, and leaves
    both stores as they were. *)
Lemma loadDoc_total (w : World) :
  ∃ r w', loadDoc w = (Ok r, w')
          ∧ documents w' = documents w ∧ images w' = images w.
Proof.
  unfold loadDoc, bind.
  destruct (loadDocument_spec w) as (w1 & Hld & Hd & Hi).
  revert Hld. generalize (match storage_failure w with
                          | Some _ => JNull
                          | None => if truthy (stored_content w)
                                    then stored_content w else JNull
                          end). intros v Hld.
  rewrite Hld. destruct (truthy v).
  - destruct (resolveImageUrls_walk_ok v w1)
      as (out & w2 & Hrun & (Hd2 & Hi2 & _) & _).
    rewrite Hrun. exists (Some out), w2. repeat split; congruence.
  - by exists None, w1.
Qed.

Lemma content_array_is_object (n : json) (l : list json) :
  prop "content" n = JArr l → ∃ fs, n = JObj fs.
Proof. destruct n; try done. by eexists. Qed.

(** What [resolved] says of the node itself. *)
Lemma resolved_node (w : World) (n n' : json) :
  resolved w n n' →
  match stored_image (images w) n with
  | Some r =>
      ∃ url, n' = with_src n url
             ∧ prop "src" (prop "attrs" n') = JStr url
             ∧ url_displays w url (img_blob r)
  | None =>
      (∀ k, k ≠ "content" → prop k n' = prop k n)
      ∧ match prop "content" n with
        | JArr children =>
            ∃ children', prop "content" n' = JArr children'
                         ∧ Forall2 (resolved w) children children'
        | _ => n' = n
        end
  end.
Proof.
  intros H.
  destruct H as [n r url Hs Hd|n children children' Hs Hc Hch|n Hs Hc];
    rewrite Hs.
  - exists url. split; [done|]. split; [|done].
    unfold with_src. by rewrite !prop_spread_eq.
  - destruct (content_array_is_object _ _ Hc) as [fs ->].
    split.
    + intros k Hk. by apply prop_spread_ne.
    + rewrite Hc. exists children'. by rewrite prop_spread_eq.
  - split; [done|]. by destruct (prop "content" n).
Qed.

Lemma resolved_at_path (w : World) (path : list nat) :
  ∀ doc out n,
    resolved w doc out →
    walk_reaches (images w) path doc = Some n →
    ∃ n', node_at path out = Some n' ∧ resolved w n n'.
Proof.
  induction path as [|i rest IH]; intros doc out n Hres Hwalk.
  - injection Hwalk as <-. by exists out.
  - cbn in Hwalk.
    destruct (stored_image (images w) doc) eqn:Hs; [done|].
    destruct (prop "content" doc) as [| | | | |children|] eqn:Hc; try done.
    destruct (children !! i) as [c|] eqn:Hi; [|done]. cbn in Hwalk.
    inversion Hres as [? r url Hs' _|? ch ch' _ Hc' Hch|? _ Hc']; subst.
    + congruence.
    + rewrite Hc in Hc'. injection Hc' as <-.
      destruct (Forall2_lookup_l _ _ _ _ _ Hch Hi) as (c' & Hi' & Hcc').
      destruct (IH c c' n Hcc' Hwalk) as (n' & Hn' & Hres').
      exists n'. split; [|done].
      cbn [node_at]. rewrite prop_spread_eq, Hi'. done.
    + by rewrite Hc in Hc'.
Qed.

(** In a document whose image nodes are leaves the walk gets to every
    node: it stops below no node that has children. *)
Lemma leaf_images_child (doc c : json) (children : list json) (i : nat) :
  leaf_images doc →
  prop "content" doc = JArr children →
  children !! i = Some c →
  leaf_images c.
Proof.
  intros Hl Hc Hi path n Hn. apply (Hl (i :: path)).
  cbn. by rewrite Hc, Hi.
Qed.

Lemma leaf_images_walk (imgs : gmap string ImageRecord) (path : list nat) :
  ∀ doc n,
    leaf_images doc →
    node_at path doc = Some n →
    walk_reaches imgs path doc = Some n.
Proof.
  induction path as [|i rest IH]; intros doc n Hl Hn; [done|].
  cbn in Hn |- *.
  destruct (prop "content" doc) as [| | | | |children|] eqn:Hc; try done.
  destruct (stored_image imgs doc) eqn:Hs.
  { unfold stored_image in Hs. destruct (is_image_ref doc) eqn:Hr; [|done].
    pose proof (Hl [] doc eq_refl Hr) as Hleaf. by rewrite Hc in Hleaf. }
  destruct (children !! i) as [c|] eqn:Hi; [|done]. cbn in Hn |- *.
  apply IH; [|done]. by eapply leaf_images_child.
Qed.

(** What the substitution of src keeps of an image node. *)
Lemma with_src_keeps (n : json) (url : string) :
  is_image_ref n = true →
  prop "src" (prop "attrs" (with_src n url)) = JStr url
  ∧ (∀ k, k ≠ "src" →
          prop k (prop "attrs" (with_src n url)) = prop k (prop "attrs" n))
  ∧ (∀ k, k ≠ "attrs" → prop k (with_src n url) = prop k n).
Proof.
  unfold is_image_ref, with_src. intros Hr.
  destruct n as [| | | | | |fs]; try done.
  destruct (prop "attrs" (JObj fs)) as [| | | | | |attrs] eqn:Ha;
    try (cbn in Hr; by rewrite andb_false_r in Hr).
  rewrite prop_spread_eq.
  split; [by rewrite prop_spread_eq|].
  split; intros k Hk; rewrite prop_spread_ne; congruence.
Qed.

(** Splitting a concrete document into its nodes, path by path. *)
Ltac each_node Hn :=
  repeat match type of Hn with
         | context [node_at ?p _] =>
             is_var p; destruct p as [|[|[|[|[|?]]]] ?]; cbn in Hn;
             try discriminate Hn
         end.

Lemma leaf_images_sample : leaf_images sample_image_doc.
Proof.
  intros path n Hn Hr. each_node Hn; simplify_eq; try reflexivity;
    vm_compute in Hr; discriminate Hr.
Qed.

(** C2.  resolveImageUrls is a recursive walk over the document.  On a
    document whose image nodes are leaves, as every document of the editor
    is, it fulfils in every world and leaves both stores as they were; and
    when no storage request fails, the result holds at the place of every
    node [n] of the document
    - for an image node carrying an imageId whose blob is stored: the node
      with attrs.src set to the object URL made by loadImage, which
      displays that blob, its other attributes and properties kept;
    - for any other node: the node with its properties other than content
      unchanged, and its content array, when it has one, made of its
      children resolved in the same way. *)
Theorem resolveImageUrls_substitutes_urls (doc : json) (w : World) :
  leaf_images doc →
  ∃ out w',
    resolveImageUrls doc w = (Ok out, w')
    ∧ documents w' = documents w
    ∧ images w' = images w
    ∧ (no_faults w →
       ∀ path n,
         node_at path doc = Some n →
         ∃ n', node_at path out = Some n'
               ∧ match stored_image (images w) n with
                 | Some r =>
                     ∃ url, n' = with_src n url
                            ∧ url_displays w' url (img_blob r)
                            ∧ prop "src" (prop "attrs" n') = JStr url
                            ∧ (∀ k, k ≠ "src" →
                                    prop k (prop "attrs" n')
                                    = prop k (prop "attrs" n))
                            ∧ (∀ k, k ≠ "attrs" → prop k n' = prop k n)
                 | None =>
                     (∀ k, k ≠ "content" → prop k n' = prop k n)
                     ∧ match prop "content" n with
                       | JArr children =>
                           ∃ children',
                             prop "content" n' = JArr children'
                             ∧ Forall2 (resolved w') children children'
                       | _ => n' = n
                       end
                 end).
Proof.
  intros Hleaf.
  destruct (resolveImageUrls_walk_ok doc w) as (out & w' & Hrun & Hext & Hnf).
  exists out, w'. split; [done|].
  destruct Hext as (Hd & Hi & _). split; [done|]. split; [done|].
  intros Hw path n Hn. destruct (Hnf Hw) as [_ Hres].
  rewrite <- Hi.
  pose proof (leaf_images_walk (images w') path doc n Hleaf Hn) as Hwalk.
  destruct (resolved_at_path w' path doc out n Hres Hwalk) as (n' & Hn' & Hr).
  exists n'. split; [done|]. apply resolved_node in Hr.
  destruct (stored_image (images w') n) as [r|] eqn:Hs; [|done].
  destruct Hr as (url & -> & _ & Hdisp).
  assert (is_image_ref n = true) as Href.
  { unfold stored_image in Hs. by destruct (is_image_ref n). }
  destruct (with_src_keeps n url Href) as (Hsrc & Hattrs & Hprops).
  by exists url.
Qed.

Lemma resolveImageUrls_substitutes_urls_witness :
  ∃ out w',
    resolveImageUrls sample_image_doc one_image_world = (Ok out, w')
    ∧ images w' = images one_image_world
    ∧ (∃ url,
         node_at [1%nat] out
         = Some (editorImage (JStr url) (JStr "img-1-a"))
         ∧ url_displays w' url sample_blob)
    ∧ node_at [3%nat] out
      = Some (editorImage (JStr "blob:gone") (JStr "img-7-gone"))
    ∧ node_at [0%nat; 0%nat] out = node_at [0%nat; 0%nat] sample_image_doc.
Proof.
  destruct (resolveImageUrls_substitutes_urls sample_image_doc one_image_world
              leaf_images_sample) as (out & w' & Hrun & _ & Hi & Hnodes).
  assert (no_faults one_image_world) as Hw by constructor.
  exists out, w'. split; [exact Hrun|]. split; [exact Hi|].
  destruct (Hnodes Hw [1%nat] _ eq_refl) as (n1 & Hn1 & H1).
  destruct (Hnodes Hw [3%nat] _ eq_refl) as (n3 & Hn3 & H3).
  destruct (Hnodes Hw [0%nat; 0%nat] _ eq_refl) as (n0 & Hn0 & H0).
  vm_compute stored_image in H1, H3, H0.
  destruct H1 as (url & -> & Hdisp & _).
  destruct H3 as [_ H3]. cbn in H3. subst n3.
  destruct H0 as [_ H0]. cbn in H0. subst n0.
  split; [exists url; split; [exact Hn1|exact Hdisp]|].
  split; [exact Hn3|exact Hn0].
Defined.

(** The walk on an image node whose blob is missing, whatever the node
    holds besides: loadImage yields null, and the walk goes on to the
    content array when there is one. *)
Lemma missing_blob_walk (n : json) (w : World) :
  is_image_ref n = true →
  lookup_image (images w) (prop "imageId" (prop "attrs" n)) = None →
  (∃ w1, loadImage (prop "imageId" (prop "attrs" n)) w = (Ok None, w1)
         ∧ documents w1 = documents w ∧ images w1 = images w
         ∧ objectURLs w1 = objectURLs w)
  ∧ ∃ out w',
      resolveImageUrls n w = (Ok out, w')
      ∧ documents w' = documents w ∧ images w' = images w
      ∧ prop "attrs" out = prop "attrs" n
      ∧ (∀ k, k ≠ "content" → prop k out = prop k n)
      ∧ match prop "content" n with
        | JArr children =>
            ∃ children' w1,
              loadImage (prop "imageId" (prop "attrs" n)) w = (Ok None, w1)
              ∧ mapM resolveImageUrls children w1 = (Ok children', w')
              ∧ out = spread_with n "content" (JArr children')
        | _ => out = n ∧ objectURLs w' = objectURLs w
        end.
Proof.
  intros Href Hmissing.
  assert (stored_image (images w) n = None) as Hs
    by (unfold stored_image; by rewrite Href).
  destruct (loadImage_spec (prop "imageId" (prop "attrs" n)) w)
    as (r & w1 & Hload & Hd1 & Hi1 & Hr & _).
  destruct r as [url|].
  { destruct Hr as (rec & Hrec & _). congruence. }
  split; [by exists w1|].
  assert (resolveImageNode n w = (Ok None, w1)) as Hnode.
  { unfold resolveImageNode. unfold is_image_ref in Href. rewrite Href.
    unfold bind. by rewrite Hload. }
  assert (truthy n = true) as Ht.
  { destruct (truthy n) eqn:E; [done|].
    destruct (falsy_is_leaf n (images w) E) as [_ Hc].
    destruct n; done. }
  rewrite resolveImageUrls_unfold, Ht. cbn [negb].
  unfold bind at 1. rewrite Hnode.
  destruct (prop "content" n) as [| | | | |children|] eqn:Hc;
    try (exists n, w1; repeat split; done).
  destruct (mapM_walk children) with (w := w1)
    as (children' & w2 & Hmap & (Hd2 & Hi2 & _) & _).
  { apply Forall_forall. intros x _. apply resolveImageUrls_walk_ok. }
  unfold bind. rewrite Hmap.
  destruct (content_array_is_object _ _ Hc) as [fs ->].
  exists (spread_with (JObj fs) "content" (JArr children')), w2.
  split; [done|]. split; [congruence|]. split; [congruence|].
  split; [by apply prop_spread_ne|].
  split; [intros k Hk; by apply prop_spread_ne|].
  by exists children', w1.
Qed.

(** C8.  That every referenced image has a stored blob is never verified or
    repaired.  For an image node, a leaf as every image node of the editor
    is, whose imageId finds no blob in the store, and whatever the storage
    requests do: loadImage fulfils with null and mints no URL;
    resolveImageUrls fulfils with the node itself, so no src is put in;
    neither store is changed.  Inside a document whose image nodes are
    leaves, resolved with no request failing, the node is found unchanged
    at its place. *)
Theorem missing_blob_left_unresolved (n : json) (w : World) :
  is_image_ref n = true →
  isArray (prop "content" n) = false →
  lookup_image (images w) (prop "imageId" (prop "attrs" n)) = None →
  (∃ w1, loadImage (prop "imageId" (prop "attrs" n)) w = (Ok None, w1)
         ∧ documents w1 = documents w ∧ images w1 = images w
         ∧ objectURLs w1 = objectURLs w)
  ∧ (∃ w', resolveImageUrls n w = (Ok n, w')
           ∧ documents w' = documents w ∧ images w' = images w
           ∧ objectURLs w' = objectURLs w)
  ∧ ∀ doc path,
      leaf_images doc →
      node_at path doc = Some n →
      no_faults w →
      ∃ out w', resolveImageUrls doc w = (Ok out, w')
                ∧ node_at path out = Some n.
Proof.
  intros Href Hleaf Hmissing.
  destruct (missing_blob_walk n w Href Hmissing)
    as (Hload & out & w' & Hrun & Hd & Hi & _ & _ & Hout).
  split; [done|]. split.
  - destruct (prop "content" n); try done; destruct Hout as [-> Hurls];
      by exists w'.
  - intros doc path Hdoc Hn Hw.
    destruct (resolveImageUrls_walk_ok doc w)
      as (out' & w2 & Hrun' & (_ & Hi2 & _) & Hnf).
    destruct (Hnf Hw) as [_ Hres].
    pose proof (leaf_images_walk (images w2) path doc n Hdoc Hn) as Hwalk.
    destruct (resolved_at_path w2 path doc out' n Hres Hwalk)
      as (n' & Hn' & Hr).
    apply resolved_node in Hr.
    assert (stored_image (images w2) n = None) as Hs.
    { unfold stored_image. by rewrite Href, Hi2. }
    rewrite Hs in Hr. destruct Hr as [_ Hr].
    exists out', w2. split; [done|].
    destruct (prop "content" n); try done; by subst n'.
Qed.

Lemma missing_blob_left_unresolved_witness :
  let n := editorImage (JStr "blob:gone") (JStr "img-7-gone") in
  (∃ w', resolveImageUrls n one_image_world = (Ok n, w')
         ∧ images w' = images one_image_world
         ∧ objectURLs w' = objectURLs one_image_world)
  ∧ ∃ out w',
      resolveImageUrls sample_image_doc one_image_world = (Ok out, w')
      ∧ node_at [3%nat] out = Some n.
Proof.
  intros n.
  destruct (missing_blob_left_unresolved n one_image_world)
    as (_ & (w' & Hrun & _ & Hi & Hurls) & Hdoc).
  - reflexivity.
  - reflexivity.
  - vm_compute. reflexivity.
  - split; [by exists w'|].
    apply (Hdoc sample_image_doc [3%nat] leaf_images_sample eq_refl).
    constructor.
Defined.

(* ===================================================================== *)
(** ** Images in the document                                            *)
(* ===================================================================== *)

(** What the shared [try] block returns, it stored and can display. *)
Lemma storeAndLoad_spec (blob : Blob) (msg : string) (w w' : World)
  (imageData : string * string) :
  storeAndLoad blob msg w = (Ok (Some imageData), w') →
  (∃ c, images w' !! imageData.1 = Some (mkImage imageData.1 blob c))
  ∧ url_displays w' imageData.2 blob
  ∧ (∃ n, imageData.2 = blobURL n)
  ∧ ∃ rest, imageData.1 = "img-" +:+ rest.
Proof.
  unfold storeAndLoad, try_catch, bind at 1.
  destruct (saveImage blob w) as [[id|e] w1] eqn:Hsave.
  2:{ cbv [console_error bind ret]. discriminate. }
  destruct (saveImage_stored _ _ _ _ Hsave) as (fs' & Hid & Hw1).
  assert (images w1
          = <[id := mkImage id blob (default 0 (clock w !! 1%nat))]> (images w))
    as Himgs by (by rewrite Hw1).
  destruct (loadImage_spec (JStr id) w1) as (r & w2 & Hload & _ & Hi & Hr & _).
  unfold bind. rewrite Hload.
  destruct r as [url|]; [|discriminate].
  destruct Hr as (rec & Hrec & -> & Hurls).
  cbn [lookup_image] in Hrec. rewrite Himgs, lookup_insert_eq in Hrec.
  injection Hrec as <-. cbn [img_blob] in Hurls.
  destruct (truthy (JStr (blobURL (length (objectURLs w1))))); [|discriminate].
  intros [= <- <-]. cbn [fst snd].
  split; [|split; [|split]].
  - eexists. by rewrite Hi, Himgs, lookup_insert_eq.
  - exists (length (objectURLs w1)). split; [done|].
    by rewrite Hurls, list_lookup_middle.
  - by eexists.
  - eexists. exact Hid.
Qed.

Lemma storeAndLoad_total (blob : Blob) (msg : string) (w : World) :
  ∃ r w', storeAndLoad blob msg w = (Ok r, w').
Proof.
  unfold storeAndLoad, try_catch.
  match goal with |- context [match ?m w with _ => _ end] =>
    destruct (m w) as [[[?|]|e] w1] end; cbv [console_error bind ret];
    by do 2 eexists.
Qed.

Lemma pasteItems_spec (items : list Item) :
  ∀ w w' imageData,
    pasteItems items w = (Ok (Some imageData), w') →
    ∃ blob w1 w2,
      Some blob ∈ map getAsFile items
      ∧ storeAndLoad blob "Failed to handle pasted image:" w1
        = (Ok (Some imageData), w2)
      ∧ w' = w2.
Proof.
  induction items as [|item rest IH]; intros w w' imageData; cbn.
  - discriminate.
  - destruct (mentions_image (item_type item)).
    2:{ intros H. destruct (IH _ _ _ H) as (b & w1 & w2 & Hin & Hs & ->).
        exists b, w1, w2. repeat split; [by right|done]. }
    destruct (getAsFile item) as [blob|] eqn:Hfile.
    2:{ intros H. destruct (IH _ _ _ H) as (b & w1 & w2 & Hin & Hs & ->).
        exists b, w1, w2. repeat split; [by right|done]. }
    unfold bind.
    destruct (storeAndLoad_total blob "Failed to handle pasted image:" w)
      as (r & w1 & Hr). rewrite Hr.
    destruct r as [d|].
    + intros [= <- <-]. exists blob, w, w1. repeat split; [by left|done].
    + intros H. destruct (IH _ _ _ H) as (b & w2 & w3 & Hin & Hs & ->).
      exists b, w2, w3. repeat split; [by right|done].
Qed.

Lemma dropFiles_spec (files : list Blob) :
  ∀ w w' imageData,
    dropFiles files w = (Ok (Some imageData), w') →
    ∃ blob w1 w2,
      blob ∈ files
      ∧ storeAndLoad blob "Failed to handle dropped image:" w1
        = (Ok (Some imageData), w2)
      ∧ w' = w2.
Proof.
  induction files as [|file rest IH]; intros w w' imageData; cbn.
  - discriminate.
  - destruct (mentions_image (blob_type file)).
    2:{ intros H. destruct (IH _ _ _ H) as (b & w1 & w2 & Hin & Hs & ->).
        exists b, w1, w2. repeat split; [by right|done]. }
    unfold bind.
    destruct (storeAndLoad_total file "Failed to handle dropped image:" w)
      as (r & w1 & Hr). rewrite Hr.
    destruct r as [d|].
    + intros [= <- <-]. exists file, w, w1. repeat split; [by left|done].
    + intros H. destruct (IH _ _ _ H) as (b & w2 & w3 & Hin & Hs & ->).
      exists b, w2, w3. repeat split; [by right|done].
Qed.

Lemma blobURL_not_inline (n : nat) : inline_data (JStr (blobURL n)) = false.
Proof. reflexivity. Qed.

(** C7, as the code has it.  The node the paste and the drop handler have
    the editor insert is an image node whose imageId is the identifier
    under which the blob was just stored and whose src is an object URL
    that displays it: a reference, not the image data.  What is persisted
    is the editor's document as it is: the record written by onSave holds
    the document unchanged, image nodes included. *)
Theorem pasted_image_referenced_by_id (items : option (list Item))
  (files : option (list Blob)) (w w' : World) (imageData : string * string) :
  handleImagePaste items w = (Ok (Some imageData), w')
  ∨ handleImageDrop files w = (Ok (Some imageData), w') →
  (∃ blob c, images w' !! imageData.1 = Some (mkImage imageData.1 blob c)
             ∧ url_displays w' imageData.2 blob)
  ∧ is_str "image" (prop "type" (imageNode imageData)) = true
  ∧ prop "imageId" (prop "attrs" (imageNode imageData)) = JStr imageData.1
  ∧ prop "src" (prop "attrs" (imageNode imageData)) = JStr imageData.2
  ∧ by_id_only (imageNode imageData) = true
  ∧ ∀ d w1 w2,
      onSave (Some d) w1 = (Ok tt, w2) →
      ∃ t, documents w2 !! DOCUMENT_ID = Some (mkDoc DOCUMENT_ID d t).
Proof.
  intros Hhandled.
  assert (∃ blob msg w1, storeAndLoad blob msg w1 = (Ok (Some imageData), w'))
    as (blob & msg & w1 & Hstore).
  { destruct Hhandled as [H|H].
    - destruct items as [l|]; [|discriminate].
      destruct (pasteItems_spec l _ _ _ H) as (b & w1 & w2 & _ & Hs & ->).
      by eexists b, _, w1.
    - destruct files as [l|]; [|discriminate].
      destruct (dropFiles_spec l _ _ _ H) as (b & w1 & w2 & _ & Hs & ->).
      by eexists b, _, w1. }
  destruct (storeAndLoad_spec _ _ _ _ _ Hstore)
    as ((c & Himg) & Hdisp & (n & Hn) & (rest & Hrest)).
  split; [by exists blob, c|].
  split; [reflexivity|]. split; [reflexivity|]. split; [reflexivity|].
  split.
  - unfold by_id_only. cbn [imageNode prop assoc_get String.eqb Ascii.eqb
                              Bool.eqb default].
    rewrite Hn, Hrest. reflexivity.
  - intros d w1' w2 Hsave. cbn [onSave] in Hsave.
    destruct (saveDocument_stored _ _ _ Hsave) as (t & Hdocs & _).
    exists t. rewrite Hdocs. apply lookup_insert_eq.
Qed.

Lemma pasted_image_referenced_by_id_witness :
  ∃ imageData w',
    handleImagePaste (Some [mkItem "text/html" None;
                            mkItem "image/png" (Some sample_blob)])
      sample_world = (Ok (Some imageData), w')
    ∧ by_id_only (imageNode imageData) = true
    ∧ ∃ c, images w' !! imageData.1 = Some (mkImage imageData.1 sample_blob c).
Proof.
  eexists (_, _), _.
  assert (∀ P Q : Prop, P → (P → Q) → P ∧ Q) as Hcut by tauto.
  apply Hcut; [vm_compute; reflexivity|].
  intros Hrun.
  destruct (pasted_image_referenced_by_id _ None _ _ _ (or_introl Hrun))
    as (_ & _ & _ & _ & Hby & _).
  split; [exact Hby|]. eexists. vm_compute. reflexivity.
Defined.

(** C7 as stated fails: the editor is configured to accept images given as
    base64 data (allowBase64: true), and onSave persists whatever document
    the editor holds.  A document with an image node whose src is a data:
    URI and whose imageId is null is stored as it is, and loadDocument
    gives it back. *)
Lemma persisted_document_with_inline_image :
  allowBase64 imageOptions = true
  ∧ ∃ w1 w2 n,
      onSave (Some inline_image_doc) sample_world = (Ok tt, w1)
      ∧ doc_content <$> documents w1 !! DOCUMENT_ID = Some inline_image_doc
      ∧ loadDocument w1 = (Ok inline_image_doc, w2)
      ∧ node_at [0%nat] inline_image_doc = Some n
      ∧ is_str "image" (prop "type" n) = true
      ∧ prop "imageId" (prop "attrs" n) = JNull
      ∧ inline_data (prop "src" (prop "attrs" n)) = true
      ∧ by_id_only n = false.
Proof.
  split; [reflexivity|].
  do 3 eexists. split; [vm_compute; reflexivity|].
  split; [vm_compute; reflexivity|]. split; [vm_compute; reflexivity|].
  split; [reflexivity|]. repeat split; vm_compute; reflexivity.
Qed.

(* ===================================================================== *)
(** ** The autosave hook                                                 *)
(* ===================================================================== *)

(** The hook under a component that hands it the same [onSave] at every
    render, so that no cleanup comes between the events. *)
Example saved_after_quiet_period :
  shown <$> run 5000 [Edit; Elapse 5000; Fire 2; Elapse 12; Settle None] (init 0)
  = Some ("saved", 0, Some 5012, false).
Proof. vm_compute. reflexivity. Qed.

(** The hook under Home: the render after the edit cancels both timers. *)
Example cleanup_cancels_pending_save :
  run 5000 [Edit; Cleanup; Elapse 5000; Fire 2] (init 0) = None
  ∧ shown <$> run 5000 [Edit; Cleanup; Elapse 5000] (init 0)
    = Some ("typing", 5, None, true).
Proof. vm_compute. done. Qed.

Example page_keeps_typing :
  shown <$> page_run [EditorUpdate; Wait 60000] (init 0)
  = Some ("typing", 5, None, true)
  ∧ page_run [EditorUpdate; Wait 60000; TimerDue 1] (init 0) = None
  ∧ page_run [EditorUpdate; Wait 60000; TimerDue 2] (init 0) = None.
Proof. vm_compute. done. Qed.

(** The delay as the browser takes it. *)
Example timer_delay_wraps :
  timer_delay 5000 = 5000
  ∧ timer_delay (-1) = 0
  ∧ timer_delay (2 ^ 31 - 1) = 2 ^ 31 - 1
  ∧ timer_delay (2 ^ 31) = 0
  ∧ timer_delay (2 ^ 32 + 5000) = 5000.
Proof. vm_compute. done. Qed.

Ltac hook_unfold :=
  cbv [triggerAutosave save_begin save_fulfilled save_rejected clearTimers
       clearTimer countdown_tick handleBeforeUnload setTimeout setInterval
       setStatus set_now set_timeoutRef set_countdownIntervalRef
       set_pendingChangesRef set_timers set_nextTimer set_awaiting
       set_onSaveCalls set_errors
       now hstatus timeoutRef countdownIntervalRef pendingChangesRef timers
       nextTimer awaiting onSaveCalls errors
       status lastSaved countdown truthy_handle] in *.

Lemma truthy_handle_true (id : nat) : id ≠ 0%nat → negb (Nat.eqb id 0) = true.
Proof. intros H. by destruct id. Qed.

(** In a tracked state clearTimers leaves no active timer behind, whichever
    refs were set. *)
Lemma clearTimers_spec (h : Hook) :
  tracked h →
  clearTimers h
  = mkHook (now h) (hstatus h) None None (pendingChangesRef h) ∅
           (nextTimer h) (awaiting h) (onSaveCalls h) (errors h).
Proof.
  destruct h as [t st tr cr p tm nx aw calls errs].
  intros (Hsave & Hcount & Htr & Hcr & Hnext). hook_unfold.
  assert (∀ tm' : gmap nat Timer,
            (∀ id x, tm' !! id = Some x → tm !! id = Some x
                     ∧ Some id ≠ tr ∧ Some id ≠ cr) → tm' = ∅) as Hempty.
  { intros tm' H. apply map_empty. intros id.
    destruct (tm' !! id) as [x|] eqn:E; [|done].
    destruct (H id x E) as (Hx & Hntr & Hncr).
    destruct x as [due|due r].
    - by rewrite (Hsave id due Hx) in Hntr.
    - by rewrite (Hcount id due r Hx) in Hncr. }
  destruct tr as [a|], cr as [b|];
    rewrite ?(truthy_handle_true a), ?(truthy_handle_true b) by congruence;
    f_equal; apply Hempty; intros id x Hx;
    repeat (apply lookup_delete_Some in Hx as [? Hx]);
    repeat split; congruence.
Qed.

Lemma triggerAutosave_spec (delay : Z) (h : Hook) :
  tracked h →
  triggerAutosave delay h
  = mkHook (now h)
      (mkStatus "typing" (lastSaved (hstatus h)) (ceil_seconds delay))
      (Some (S (nextTimer h))) (Some (nextTimer h)) true
      (<[S (nextTimer h) := SaveTimer (now h + timer_delay delay)]>
         (<[nextTimer h := CountdownTimer (now h + 1000) (ceil_seconds delay)]>
            ∅))
      (S (S (nextTimer h))) (awaiting h) (onSaveCalls h) (errors h).
Proof.
  intros Ht. unfold triggerAutosave. rewrite (clearTimers_spec h Ht).
  reflexivity.
Qed.

Lemma save_begin_spec (h : Hook) :
  tracked h →
  save_begin h
  = mkHook (now h) (mkStatus "saving" (lastSaved (hstatus h)) 0) None None
      (pendingChangesRef h) ∅ (nextTimer h) (S (awaiting h))
      (S (onSaveCalls h)) (errors h).
Proof.
  intros Ht. unfold save_begin. rewrite (clearTimers_spec h Ht). reflexivity.
Qed.

Lemma tracked_clearTimer (id : nat) (h : Hook) : tracked h → tracked (clearTimer id h).
Proof.
  destruct h as [t st tr cr p tm nx aw calls errs].
  intros (Hsave & Hcount & Htr & Hcr & Hnext). unfold tracked. hook_unfold.
  repeat split; try done.
  - intros id' due H. apply lookup_delete_Some in H as [_ H]. eauto.
  - intros id' due r H. apply lookup_delete_Some in H as [_ H]. eauto.
Qed.

Lemma tracked_no_timers (t : Z) (st : AutosaveStatus) (p : bool)
  (nx aw calls : nat) (errs : list (string * string)) :
  nx ≠ 0%nat → tracked (mkHook t st None None p ∅ nx aw calls errs).
Proof. intros Hnx. unfold tracked. cbn. repeat split; done. Qed.

(** Every event keeps the timers tracked. *)
Lemma step_tracked (delay : Z) (e : Event) (h h' : Hook) :
  tracked h → step delay e h = Some h' → tracked h'.
Proof.
  intros Ht Hstep.
  destruct e as [dt| |id|r| | |]; cbn [step] in Hstep.
  - destruct (0 <=? dt); [|done]. injection Hstep as <-.
    destruct h. exact Ht.
  - injection Hstep as <-. rewrite (triggerAutosave_spec delay h Ht).
    destruct Ht as (_ & _ & _ & _ & Hnext).
    unfold tracked. cbn. repeat split; try done.
    + intros id due H. apply lookup_insert_Some in H as [[<- _]|[Hne H]]; [done|].
      apply lookup_insert_Some in H as [[_ [=]]|[_ H]]. done.
    + intros id due r H. apply lookup_insert_Some in H as [[_ [=]]|[_ H]].
      apply lookup_insert_Some in H as [[<- _]|[_ H]]; done.
    + congruence.
  - destruct (timers h !! id) as [[due|due rem]|] eqn:Hid; [| |done].
    + destruct (due <=? now h); [|done]. injection Hstep as <-.
      rewrite save_begin_spec by by apply tracked_clearTimer.
      apply tracked_no_timers. destruct h. apply Ht.
    + destruct (due <=? now h); [|done]. injection Hstep as <-.
      destruct h as [t st tr cr p tm nx aw calls errs].
      destruct Ht as (Hsave & Hcount & Htr & Hcr & Hnext).
      cbn in Hid. pose proof (Hcount id due rem Hid) as Hcr'. cbn in Hcr'.
      subst cr. unfold tracked. hook_unfold.
      rewrite (truthy_handle_true id) by congruence.
      destruct (rem - 1 <=? 0); cbn [andb]; cbn; repeat split; try done.
      * intros id' due' H. apply lookup_delete_Some in H as [Hne H].
        rewrite lookup_insert_ne in H by done. eauto.
      * intros id' due' r' H. apply lookup_delete_Some in H as [Hne H].
        rewrite lookup_insert_ne in H by done.
        specialize (Hcount _ _ _ H). cbn in Hcount. congruence.
      * intros id' due' H. apply lookup_insert_Some in H as [[_ [=]]|[_ H]].
        eauto.
      * intros id' due' r' H. apply lookup_insert_Some in H as [[<- _]|[_ H]];
          eauto.
  - destruct (awaiting h) as [|n] eqn:Haw; [done|]. injection Hstep as <-.
    destruct h. destruct r; exact Ht.
  - injection Hstep as <-. rewrite (save_begin_spec h Ht).
    apply tracked_no_timers. apply Ht.
  - injection Hstep as <-. rewrite (clearTimers_spec h Ht).
    apply tracked_no_timers. apply Ht.
  - injection Hstep as <-. unfold handleBeforeUnload.
    destruct h. destruct pendingChangesRef0; exact Ht.
Qed.

Lemma run_snoc (delay : Z) (evs : list Event) (e : Event) (h : Hook) :
  run delay (evs ++ [e]) h = run delay evs h ≫= step delay e.
Proof.
  revert h. induction evs as [|e' evs IH]; intros h; cbn.
  - by destruct (step delay e h).
  - destruct (step delay e' h); [apply IH|done].
Qed.

Lemma run_tracked (delay t0 : Z) (evs : list Event) (h : Hook) :
  run delay evs (init t0) = Some h → tracked h.
Proof.
  revert h. induction evs as [|e evs IH] using rev_ind; intros h.
  - intros [= <-]. by apply tracked_no_timers.
  - rewrite run_snoc.
    destruct (run delay evs (init t0)) as [h0|]; [|done]. cbn.
    apply step_tracked. by apply IH.
Qed.

(** No event but an edit sets a save timer. *)
Lemma step_keeps_save_timers (delay : Z) (e : Event) (h h' : Hook)
  (id : nat) (due : Z) :
  tracked h → is_edit e = false → step delay e h = Some h' →
  timers h' !! id = Some (SaveTimer due) →
  timers h !! id = Some (SaveTimer due).
Proof.
  intros Ht He Hstep.
  destruct e as [dt| |id0|r| | |]; cbn [step] in Hstep; try done.
  - destruct (0 <=? dt); [|done]. injection Hstep as <-. by destruct h.
  - destruct (timers h !! id0) as [[due0|due0 rem]|] eqn:Hid; [| |done].
    + destruct (due0 <=? now h); [|done]. injection Hstep as <-.
      rewrite save_begin_spec by by apply tracked_clearTimer. done.
    + destruct (due0 <=? now h); [|done]. injection Hstep as <-.
      destruct h as [t st tr cr p tm nx aw calls errs]. hook_unfold.
      match goal with
      | |- context [if ?c then _ else _] => destruct c
      end; destruct cr; cbn;
        rewrite ?lookup_delete_Some, ?lookup_insert_Some; naive_solver.
  - destruct (awaiting h) as [|n] eqn:Haw; [done|]. injection Hstep as <-.
    destruct h. by destruct r.
  - injection Hstep as <-. by rewrite (save_begin_spec h Ht).
  - injection Hstep as <-. by rewrite (clearTimers_spec h Ht).
  - injection Hstep as <-. unfold handleBeforeUnload.
    destruct h. by destruct pendingChangesRef0.
Qed.

Lemma valid_status_cases (s : string) :
  valid_status s ↔ s = "idle" ∨ s = "typing" ∨ s = "saving" ∨ s = "saved".
Proof. unfold valid_status. rewrite !elem_of_cons, elem_of_nil. tauto. Qed.

(** No event takes the status out of the four values. *)
Lemma step_valid_status (delay : Z) (e : Event) (h h' : Hook) :
  valid_status (status (hstatus h)) →
  step delay e h = Some h' →
  valid_status (status (hstatus h')).
Proof.
  intros Hv Hstep.
  destruct e as [dt| |id|r| | |]; cbn [step] in Hstep.
  - destruct (0 <=? dt); [|done]. injection Hstep as <-. by destruct h.
  - injection Hstep as <-. apply valid_status_cases.
    destruct h as [t st [?|] [?|] p tm nx aw calls errs]; hook_unfold;
      repeat match goal with
             | |- context [if ?c then _ else _] => destruct c
             end; cbn; tauto.
  - destruct (timers h !! id) as [[due|due rem]|] eqn:Hid; [| |done];
      (destruct (due <=? now h); [|done]); injection Hstep as <-.
    + apply valid_status_cases.
      destruct h as [t st [?|] [?|] p tm nx aw calls errs]; hook_unfold;
        repeat match goal with
               | |- context [if ?c then _ else _] => destruct c
               end; cbn; tauto.
    + destruct h as [t st tr [?|] p tm nx aw calls errs]; hook_unfold;
        repeat match goal with
               | |- context [if ?c then _ else _] => destruct c
               end; exact Hv.
  - destruct (awaiting h) as [|n] eqn:Haw; [done|]. injection Hstep as <-.
    apply valid_status_cases. destruct h. destruct r; cbn; tauto.
  - injection Hstep as <-. apply valid_status_cases.
    destruct h as [t st [?|] [?|] p tm nx aw calls errs]; hook_unfold;
      repeat match goal with
             | |- context [if ?c then _ else _] => destruct c
             end; cbn; tauto.
  - injection Hstep as <-.
    destruct h as [t st [?|] [?|] p tm nx aw calls errs]; hook_unfold;
      repeat match goal with
             | |- context [if ?c then _ else _] => destruct c
             end; exact Hv.
  - injection Hstep as <-. unfold handleBeforeUnload.
    destruct h. by destruct pendingChangesRef0.
Qed.

Lemma run_valid_status (delay t0 : Z) (evs : list Event) (h : Hook) :
  run delay evs (init t0) = Some h → valid_status (status (hstatus h)).
Proof.
  revert h. induction evs as [|e evs IH] using rev_ind; intros h.
  - intros [= <-]. apply valid_status_cases. cbn. tauto.
  - rewrite run_snoc.
    destruct (run delay evs (init t0)) as [h0|]; [|done]. cbn.
    apply step_valid_status. by apply IH.
Qed.

Lemma run_app (delay : Z) (evs1 evs2 : list Event) (h : Hook) :
  run delay (evs1 ++ evs2) h = run delay evs1 h ≫= run delay evs2.
Proof.
  revert h. induction evs1 as [|e evs1 IH]; intros h; cbn; [done|].
  destruct (step delay e h); [apply IH|done].
Qed.

(* ===================================================================== *)
(** ** The hook on the page                                              *)
(* ===================================================================== *)

(** Every run of the page is a run of the hook, so what holds of every
    state of the hook holds on the page. *)
Lemma page_run_run (evs : list PageEvent) (h : Hook) :
  page_run evs h = run Home.delay (evs ≫= page_events) h.
Proof.
  revert h. induction evs as [|e evs IH]; intros h; [done|].
  cbn [page_run mbind list_bind]. change (mbind page_events evs) with (evs ≫= page_events).
  rewrite run_app. unfold page_step.
  destruct (run Home.delay (page_events e) h); [apply IH|done].
Qed.

Lemma run_keeps_tracked (delay : Z) (evs : list Event) (h h' : Hook) :
  tracked h → run delay evs h = Some h' → tracked h'.
Proof.
  revert h. induction evs as [|e evs IH]; intros h Ht; cbn.
  - by intros [= <-].
  - destruct (step delay e h) as [h1|] eqn:He; [|done].
    apply IH. by eapply step_tracked.
Qed.

(** One event of the page, in a state with nothing scheduled: the update
    of the editor sets both timers and the render that follows clears
    them; no callback of a timer and no settling of a save can happen. *)
Lemma page_step_spec (e : PageEvent) (h : Hook) :
  tracked h → nothing_scheduled h →
  page_step e h
  = match e with
    | EditorUpdate =>
        Some (mkHook (now h)
                (mkStatus "typing" (lastSaved (hstatus h))
                   (ceil_seconds Home.delay))
                None None true ∅ (S (S (nextTimer h))) (awaiting h)
                (onSaveCalls h) (errors h))
    | Wait dt => if 0 <=? dt then Some (set_now (now h + dt) h) else None
    | TimerDue _ | OnSaveSettled _ => None
    | Rerender => Some h
    | Unload => Some (handleBeforeUnload h)
    end.
Proof.
  intros Ht (Htm & Htr & Hcr & Haw).
  destruct e as [|dt|id|r| |]; unfold page_step, page_events, render;
    cbn [run step].
  - rewrite clearTimers_spec by by apply (step_tracked Home.delay Edit h).
    by rewrite (triggerAutosave_spec _ h Ht).
  - by destruct (0 <=? dt).
  - by rewrite Htm, lookup_empty.
  - by rewrite Haw.
  - rewrite (clearTimers_spec h Ht). destruct h. cbn in *. by subst.
  - done.
Qed.

Lemma page_step_keeps (e : PageEvent) (h h' : Hook) :
  tracked h → nothing_scheduled h → page_step e h = Some h' →
  tracked h' ∧ nothing_scheduled h'.
Proof.
  intros Ht Hn Hstep. split.
  - by apply (run_keeps_tracked Home.delay (page_events e) h).
  - rewrite (page_step_spec e h Ht Hn) in Hstep.
    destruct Hn as (Htm & Htr & Hcr & Haw).
    destruct e as [|dt|id|r| |]; try done.
    + injection Hstep as <-. done.
    + destruct (0 <=? dt); [|done]. injection Hstep as <-. done.
    + injection Hstep as <-. done.
    + injection Hstep as <-. unfold handleBeforeUnload.
      destruct (pendingChangesRef h); done.
Qed.

(** The state of the page after any events: nothing is scheduled, no
    callback has run, the status is what the last update of the editor
    made it, and onSave was called by the unload listener only. *)
Lemma page_run_spec (evs : list PageEvent) :
  ∀ h h',
    tracked h → nothing_scheduled h →
    page_run evs h = Some h' →
    tracked h'
    ∧ nothing_scheduled h'
    ∧ Forall (λ e, no_callback e = true) evs
    ∧ hstatus h'
      = (if edited evs
         then mkStatus "typing" (lastSaved (hstatus h))
                (ceil_seconds Home.delay)
         else hstatus h)
    ∧ pendingChangesRef h' = edited evs || pendingChangesRef h
    ∧ onSaveCalls h'
      = (onSaveCalls h + unload_saves (pendingChangesRef h) evs)%nat
    ∧ errors h' = errors h.
Proof.
  induction evs as [|e evs IH]; intros h h' Ht Hn; cbn [page_run].
  - intros [= <-]. cbn.
    split; [done|]. split; [done|]. split; [constructor|]. split; [done|].
    split; [done|]. split; [lia|done].
  - destruct (page_step e h) as [h1|] eqn:He; [|done]. intros Hrun.
    destruct (page_step_keeps e h h1 Ht Hn He) as [Ht1 Hn1].
    destruct (IH h1 h' Ht1 Hn1 Hrun) as (Ht' & Hn' & Hall & Hst & Hp & Hc & Herr).
    rewrite (page_step_spec e h Ht Hn) in He.
    split; [done|]. split; [done|].
    destruct e as [|dt|id|r| |]; try done.
    + injection He as <-. cbn in *.
      split; [by constructor|]. split; [by destruct (edited evs)|].
      split; [by rewrite orb_true_r in Hp|]. done.
    + destruct (0 <=? dt); [|done]. injection He as <-.
      split; [by constructor|]. done.
    + injection He as <-. split; [by constructor|]. done.
    + injection He as <-. split; [by constructor|].
      unfold handleBeforeUnload in *. cbn [edited existsb unload_saves orb].
      destruct (pendingChangesRef h) eqn:Hpend; cbn in *;
        rewrite ?Hpend in *; repeat split; try done; lia.
Qed.

(** C1.  The hook debounces, the page undoes it.  In every state [h] the
    page gets to: triggerAutosave does set the save timer, held by
    timeoutRef and due 5000 ms after the call, but the render that follows
    the update of the editor hands the effect a new onSave, whose cleanup
    calls clearTimers; so after every event of the page no timer is active
    and no save is awaited, no callback of a timer has run or can run
    however long the page waits after an update, and onSave has been
    called by the unload listener only.  The save that the claim has
    running one delay after the last edit does not run. *)
Theorem scheduled_save_is_cancelled (t0 : Z) (evs : list PageEvent) (h : Hook) :
  page_run evs (init t0) = Some h →
  (∃ id, timeoutRef (triggerAutosave Home.delay h) = Some id
         ∧ timers (triggerAutosave Home.delay h) !! id
           = Some (SaveTimer (now h + 5000)))
  ∧ (∃ h1, page_step EditorUpdate h = Some h1
           ∧ pendingChangesRef h1 = true
           ∧ nothing_scheduled h1
           ∧ onSaveCalls h1 = onSaveCalls h)
  ∧ nothing_scheduled h
  ∧ Forall (λ e, no_callback e = true) evs
  ∧ onSaveCalls h = unload_saves false evs
  ∧ (∀ dt id, page_run [Wait dt; TimerDue id] h = None)
  ∧ (∀ dt id, page_run [EditorUpdate; Wait dt; TimerDue id] h = None).
Proof.
  intros Hrun.
  assert (tracked (init t0)) as Ht0 by by apply tracked_no_timers.
  assert (nothing_scheduled (init t0)) as Hn0 by done.
  destruct (page_run_spec evs _ _ Ht0 Hn0 Hrun)
    as (Ht & Hn & Hall & _ & _ & Hcalls & _).
  assert (∀ h0 dt id, tracked h0 → nothing_scheduled h0 →
                      page_run [Wait dt; TimerDue id] h0 = None) as Hwait.
  { intros h0 dt id Hth Hnh. cbn [page_run].
    destruct (page_step (Wait dt) h0) as [h1|] eqn:He; [|done].
    destruct (page_step_keeps _ _ _ Hth Hnh He) as [Ht1 Hn1].
    by rewrite (page_step_spec (TimerDue id) h1 Ht1 Hn1). }
  pose proof (page_step_spec EditorUpdate h Ht Hn) as Hupd.
  split.
  { exists (S (nextTimer h)). rewrite (triggerAutosave_spec _ h Ht). cbn.
    split; [done|]. by rewrite lookup_insert_eq. }
  split.
  { eexists. split; [exact Hupd|]. destruct Hn as (_ & _ & _ & Haw). done. }
  split; [done|]. split; [done|]. split; [done|].
  split; [intros dt id; by apply Hwait|].
  intros dt id. cbn [page_run]. rewrite Hupd.
  destruct (page_step_keeps _ _ _ Ht Hn Hupd) as [Ht1 Hn1].
  by apply Hwait.
Qed.

Lemma scheduled_save_is_cancelled_witness :
  ∃ h, page_run sample_page_events (init 0) = Some h
       ∧ now h = 7000
       ∧ pendingChangesRef h = true
       ∧ timers h = ∅
       ∧ onSaveCalls h = 0%nat
       ∧ (∀ id, page_run [Wait 0; TimerDue id] h = None)
       ∧ shown <$> run Home.delay [Edit; Elapse 2000; Edit; Elapse 5000; Fire 4]
                     (init 0)
         = Some ("saving", 0, None, true).
Proof.
  eexists.
  assert (∀ P Q : Prop, P → (P → Q) → P ∧ Q) as Hcut by tauto.
  apply Hcut; [vm_compute; reflexivity|]. intros Hrun.
  destruct (scheduled_save_is_cancelled 0 sample_page_events _ Hrun)
    as (_ & _ & (Htm & _) & _ & Hcalls & Hwait & _).
  split; [reflexivity|]. split; [reflexivity|]. split; [exact Htm|].
  split; [exact Hcalls|]. split; [intros id; apply Hwait|].
  vm_compute. reflexivity.
Defined.

(** C4.  The hook has four states, the page shows two.  At every state
    [h] the page gets to, the functions of the hook do what the claim
    says: triggerAutosave gives 'typing' with the countdown of the delay,
    save gives 'saving', then 'saved' when onSave fulfils and 'idle' when
    it rejects.  But save never runs on the page: the status is 'idle'
    until the first update of the editor and from then on 'typing' with
    the countdown at 5 and lastSaved null, and the indicator reads
    'Typing... autosave in 5s' for good. *)
Theorem status_stays_typing (toLocaleTimeString : Z → string) (t0 : Z)
  (evs : list PageEvent) (h : Hook) :
  page_run evs (init t0) = Some h →
  (status (hstatus (triggerAutosave Home.delay h)) = "typing"
   ∧ countdown (hstatus (triggerAutosave Home.delay h)) = 5
   ∧ status (hstatus (save_begin h)) = "saving"
   ∧ status (hstatus (save_fulfilled (save_begin h))) = "saved"
   ∧ ∀ error, status (hstatus (save_rejected error (save_begin h))) = "idle")
  ∧ hstatus h = (if edited evs
                 then mkStatus "typing" None 5
                 else mkStatus "idle" None 0)
  ∧ valid_status (status (hstatus h))
  ∧ status (hstatus h) ≠ "saving"
  ∧ status (hstatus h) ≠ "saved"
  ∧ getStatusText toLocaleTimeString (hstatus h)
    = (if edited evs
       then "Typing... autosave in 5s"
       else "All changes saved").
Proof.
  intros Hrun.
  assert (tracked (init t0)) as Ht0 by by apply tracked_no_timers.
  assert (nothing_scheduled (init t0)) as Hn0 by done.
  destruct (page_run_spec evs _ _ Ht0 Hn0 Hrun) as (Ht & _ & _ & Hst & _).
  split.
  { rewrite (triggerAutosave_spec _ h Ht), (save_begin_spec h Ht). done. }
  cbn in Hst. change (ceil_seconds Home.delay) with 5 in Hst.
  rewrite Hst. destruct (edited evs).
  - split; [done|]. split; [|done]. apply valid_status_cases. tauto.
  - split; [done|]. split; [|done]. apply valid_status_cases. tauto.
Qed.

Lemma status_stays_typing_witness :
  ∃ h, page_run sample_page_events (init 0) = Some h
       ∧ shown h = ("typing", 5, None, true)
       ∧ getStatusText pretty (hstatus h) = "Typing... autosave in 5s".
Proof.
  eexists.
  assert (∀ P Q : Prop, P → (P → Q) → P ∧ Q) as Hcut by tauto.
  apply Hcut; [vm_compute; reflexivity|]. intros Hrun.
  destruct (status_stays_typing pretty 0 sample_page_events _ Hrun)
    as (_ & _ & _ & _ & _ & Htext).
  split; [reflexivity|]. exact Htext.
Defined.

(** C5.  When the onSave awaited by save rejects, nothing happens but the
    catch block: the error is logged, the status goes to 'idle' with
    countdown 0, lastSaved and pendingChangesRef are left as they were (a
    pending change stays pending), no timer is set or cleared and onSave is
    not called again. *)
Theorem save_failure_only_logged (delay : Z) (h h' : Hook) (error : string) :
  step delay (Settle (Some error)) h = Some h' →
  errors h' = errors h ++ [("Autosave failed:", error)]
  ∧ status (hstatus h') = "idle"
  ∧ countdown (hstatus h') = 0
  ∧ lastSaved (hstatus h') = lastSaved (hstatus h)
  ∧ pendingChangesRef h' = pendingChangesRef h
  ∧ (pendingChangesRef h = true → pendingChangesRef h' = true)
  ∧ timers h' = timers h
  ∧ timeoutRef h' = timeoutRef h
  ∧ countdownIntervalRef h' = countdownIntervalRef h
  ∧ onSaveCalls h' = onSaveCalls h
  ∧ S (awaiting h') = awaiting h.
Proof.
  cbn [step]. destruct (awaiting h) as [|n] eqn:Haw; [done|].
  intros [= <-]. destruct h. cbn in *. repeat split; auto.
Qed.

Lemma save_failure_only_logged_witness :
  ∃ h h',
    run 5000 [Edit; Elapse 5000; Fire 2] (init 0) = Some h
    ∧ step 5000 (Settle (Some "QuotaExceededError")) h = Some h'
    ∧ status (hstatus h) = "saving"
    ∧ status (hstatus h') = "idle"
    ∧ pendingChangesRef h' = true
    ∧ lastSaved (hstatus h') = None
    ∧ timers h' = ∅
    ∧ onSaveCalls h' = 1%nat
    ∧ errors h' = [("Autosave failed:", "QuotaExceededError")].
Proof.
  do 2 eexists.
  assert (∀ P Q R : Prop, P → Q → (Q → R) → P ∧ Q ∧ R) as Hcut by tauto.
  apply Hcut; [vm_compute; reflexivity|vm_compute; reflexivity|].
  intros Hstep.
  destruct (save_failure_only_logged _ _ _ _ Hstep)
    as (Herr & Hst & _ & Hls & Hp & _ & Htm & _ & _ & Hcalls & _).
  split; [reflexivity|]. split; [exact Hst|].
  split; [rewrite Hp; reflexivity|]. split; [rewrite Hls; reflexivity|].
  split; [rewrite Htm; reflexivity|]. split; [rewrite Hcalls; reflexivity|].
  rewrite Herr. reflexivity.
Defined.

(* ===================================================================== *)
(** ** Further properties of the storage layer                           *)
(* ===================================================================== *)

Create HintDb keeps discriminated.

Lemma keeps_ret {A} (a : A) : keeps (ret a).
Proof. intros w. by split. Qed.

Lemma keeps_throw {A} (e : string) : keeps (@throw A e).
Proof. intros w. by split. Qed.

Lemma keeps_bind {A B} (m : M A) (k : A → M B) :
  keeps m → (∀ a, keeps (k a)) → keeps (bind m k).
Proof.
  intros Hm Hk w. unfold bind.
  destruct (Hm w) as [Hwf Hdb]. destruct (m w) as [[a|e] w1]; cbn in *.
  - destruct (Hk a w1). split; auto.
  - by split.
Qed.

Lemma keeps_try_catch {A} (m : M A) (h : string → M A) :
  keeps m → (∀ e, keeps (h e)) → keeps (try_catch m h).
Proof.
  intros Hm Hh w. unfold try_catch.
  destruct (Hm w) as [Hwf Hdb]. destruct (m w) as [[a|e] w1]; cbn in *.
  - by split.
  - destruct (Hh e w1). split; auto.
Qed.

Lemma keeps_unchanged {A} (m : M A) :
  (∀ w, documents (m w).2 = documents w
        ∧ images (m w).2 = images w
        ∧ dbInstance (m w).2 = dbInstance w) →
  keeps m.
Proof.
  intros H w. destruct (H w) as (Hd & Hi & Hdb).
  unfold store_wf. rewrite Hd, Hi, Hdb. by split.
Qed.

Lemma keeps_request : keeps request.
Proof.
  apply keeps_unchanged. intros w. unfold request.
  by destruct (faults w) as [|[e|] fs].
Qed.

Lemma keeps_console_error (msg e : string) : keeps (console_error msg e).
Proof. by apply keeps_unchanged. Qed.

Lemma keeps_Date_now : keeps Date_now.
Proof. apply keeps_unchanged. intros w. unfold Date_now. by destruct (clock w). Qed.

Lemma keeps_random_suffix : keeps random_suffix.
Proof.
  apply keeps_unchanged. intros w. unfold random_suffix. by destruct (random w).
Qed.

Lemma keeps_createObjectURL (b : Blob) : keeps (createObjectURL b).
Proof. by apply keeps_unchanged. Qed.

Lemma keeps_getDB : keeps getDB.
Proof.
  intros w. unfold getDB. destruct (dbInstance w) eqn:Hdb; [by split|].
  unfold bind, request. destruct (faults w) as [|[e|] fs]; by split.
Qed.

#[local] Hint Resolve keeps_ret keeps_throw keeps_request keeps_console_error
  keeps_Date_now keeps_random_suffix keeps_createObjectURL keeps_getDB : keeps.
#[local] Hint Extern 1 (keeps (bind _ _)) => apply keeps_bind; [|intros] : keeps.
#[local] Hint Extern 1 (keeps (try_catch _ _)) =>
  apply keeps_try_catch; [|intros] : keeps.
#[local] Hint Extern 2 (keeps (match ?x with _ => _ end)) => destruct x : keeps.
#[local] Hint Extern 2 (keeps (if ?x then _ else _)) => destruct x : keeps.

Lemma keeps_put_documents (d : json) (t : Z) :
  keeps (db_put_documents (mkDoc DOCUMENT_ID d t)).
Proof.
  unfold db_put_documents. apply keeps_bind; [auto with keeps|]. intros _ w.
  split; [|done]. intros [Hdocs Himgs]. split; [|done]. cbn.
  intros k r Hk. apply lookup_insert_Some in Hk as [[<- <-]|[_ Hk]]; eauto.
Qed.

Lemma keeps_put_images (b : Blob) (rest : string) (t : Z) :
  keeps (db_put_images (mkImage ("img-" +:+ rest) b t)).
Proof.
  unfold db_put_images. apply keeps_bind; [auto with keeps|]. intros _ w.
  split; [|done]. intros [Hdocs Himgs]. split; [done|]. cbn.
  intros k r Hk. apply lookup_insert_Some in Hk as [[<- <-]|[_ Hk]]; eauto.
Qed.

Lemma keeps_delete_images (id : string) : keeps (db_delete_images id).
Proof.
  unfold db_delete_images. apply keeps_bind; [auto with keeps|]. intros _ w.
  split; [|done]. intros [Hdocs Himgs]. split; [done|]. cbn.
  intros k r Hk. apply lookup_delete_Some in Hk as [_ Hk]. eauto.
Qed.

Lemma keeps_get_documents (s : string) : keeps (db_get_documents s).
Proof.
  unfold db_get_documents. apply keeps_bind; [auto with keeps|].
  intros _. by apply keeps_unchanged.
Qed.

Lemma keeps_get_images (k : json) : keeps (db_get_images k).
Proof.
  unfold db_get_images. destruct (validKey k); [|auto with keeps].
  apply keeps_bind; [auto with keeps|]. intros _. by apply keeps_unchanged.
Qed.

Lemma keeps_getAllKeys_images : keeps db_getAllKeys_images.
Proof.
  unfold db_getAllKeys_images. apply keeps_bind; [auto with keeps|].
  intros _. by apply keeps_unchanged.
Qed.

#[local] Hint Resolve keeps_put_documents keeps_put_images keeps_delete_images
  keeps_get_documents keeps_get_images keeps_getAllKeys_images : keeps.

Lemma keeps_saveDocument (d : json) : keeps (saveDocument d).
Proof. unfold saveDocument. auto 10 with keeps. Qed.

Lemma keeps_loadDocument : keeps loadDocument.
Proof.
  unfold loadDocument. apply keeps_try_catch; [|auto with keeps].
  apply keeps_bind; [auto with keeps|]. intros _.
  apply keeps_bind; auto with keeps.
Qed.

Lemma keeps_saveImage (b : Blob) : keeps (saveImage b).
Proof. unfold saveImage. auto 12 with keeps. Qed.

Lemma keeps_loadImage (k : json) : keeps (loadImage k).
Proof.
  unfold loadImage. apply keeps_try_catch; [|auto with keeps].
  apply keeps_bind; [auto with keeps|]. intros _.
  apply keeps_bind; auto 10 with keeps.
Qed.

Lemma keeps_getAllImages : keeps getAllImages.
Proof.
  unfold getAllImages. apply keeps_try_catch; [|auto with keeps].
  apply keeps_bind; [auto with keeps|]. intros _.
  apply keeps_bind; auto with keeps.
Qed.

Lemma keeps_deleteImage (id : string) : keeps (deleteImage id).
Proof. unfold deleteImage. auto 10 with keeps. Qed.

#[local] Hint Resolve keeps_saveDocument keeps_loadDocument keeps_saveImage
  keeps_loadImage keeps_getAllImages keeps_deleteImage : keeps.

Lemma keeps_ext {A} (m m' : M A) : (∀ w, m w = m' w) → keeps m' → keeps m.
Proof. intros Heq Hm w. rewrite Heq. apply Hm. Qed.

Lemma keeps_mapM (f : json → M json) (l : list json) :
  Forall (λ x, keeps (f x)) l → keeps (mapM f l).
Proof.
  induction 1 as [|x l Hx Hl IH]; [apply keeps_ret|].
  eapply keeps_ext; [intros w; apply mapM_cons|].
  apply keeps_bind; [done|]. intros y.
  apply keeps_bind; [done|]. intros ys. apply keeps_ret.
Qed.

Lemma keeps_resolveImageNode (n : json) : keeps (resolveImageNode n).
Proof. unfold resolveImageNode. auto 10 with keeps. Qed.

Lemma keeps_resolveImageUrls (doc : json) : keeps (resolveImageUrls doc).
Proof.
  enough (keeps (resolveImageUrls doc)
          ∧ ∀ l, doc = JArr l → Forall (λ x, keeps (resolveImageUrls x)) l)
    by tauto.
  assert (∀ v, (∀ l, prop "content" v = JArr l →
                     Forall (λ x, keeps (resolveImageUrls x)) l) →
               keeps (resolveImageUrls v)) as Hintro.
  { intros v Hv. eapply keeps_ext; [apply resolveImageUrls_unfold|].
    destruct (negb (truthy v)); [apply keeps_ret|].
    apply keeps_bind; [apply keeps_resolveImageNode|].
    intros [r|]; [apply keeps_ret|].
    destruct (prop "content" v) as [| | | | |l|]; try apply keeps_ret.
    apply keeps_bind; [|intros; apply keeps_ret].
    apply keeps_mapM. by apply Hv. }
  induction doc as [| |b|z|s|l IH|fs IH] using json_nested_ind;
    try (split; [apply Hintro; intros l; cbn; discriminate
                |intros l; discriminate]).
  - split; [apply Hintro; intros l'; cbn; discriminate|].
    intros l' [= <-]. eapply Forall_impl; [exact IH|]. cbn. tauto.
  - split; [|discriminate].
    apply Hintro. intros l Hl. cbn in Hl.
    destruct (assoc_get "content" fs) as [v|] eqn:Hv; [|discriminate].
    cbn in Hl. subst v.
    by apply (assoc_get_Forall
                (λ v, keeps (resolveImageUrls v)
                      ∧ ∀ l, v = JArr l →
                             Forall (λ x, keeps (resolveImageUrls x)) l)
                _ _ _ IH Hv).
Qed.

Lemma keeps_storeAndLoad (b : Blob) (msg : string) : keeps (storeAndLoad b msg).
Proof. unfold storeAndLoad. auto 12 with keeps. Qed.

Lemma keeps_pasteItems (items : list Item) : keeps (pasteItems items).
Proof.
  induction items as [|item rest IH]; cbn [pasteItems]; [apply keeps_ret|].
  destruct (mentions_image (item_type item)); [|done].
  destruct (getAsFile item); [|done].
  apply keeps_bind; [apply keeps_storeAndLoad|]. intros [d|]; auto with keeps.
Qed.

Lemma keeps_dropFiles (files : list Blob) : keeps (dropFiles files).
Proof.
  induction files as [|file rest IH]; cbn [dropFiles]; [apply keeps_ret|].
  destruct (mentions_image (blob_type file)); [|done].
  apply keeps_bind; [apply keeps_storeAndLoad|]. intros [d|]; auto with keeps.
Qed.

Lemma keeps_perform (op : Op) (w : World) :
  (store_wf w → store_wf (perform op w))
  ∧ (dbInstance w = true → dbInstance (perform op w) = true).
Proof.
  destruct op as [d| |b|k| |id|c| |e|items|files]; cbn [perform].
  - apply keeps_saveDocument.
  - apply keeps_loadDocument.
  - apply keeps_saveImage.
  - apply keeps_loadImage.
  - apply keeps_getAllImages.
  - apply keeps_deleteImage.
  - apply keeps_resolveImageUrls.
  - unfold loadDoc. apply keeps_bind; [apply keeps_loadDocument|].
    intros v. destruct (truthy v); [|apply keeps_ret].
    apply keeps_bind; [apply keeps_resolveImageUrls|]. intros; apply keeps_ret.
  - destruct e; [apply keeps_saveDocument|apply keeps_ret].
  - destruct items; [apply keeps_pasteItems|apply keeps_ret].
  - destruct files; [apply keeps_dropFiles|apply keeps_ret].
Qed.

(** X1.  The stores keep their shape under every sequence of calls: the
    'documents' store never holds a record under another key than
    'main-document', and every record of the 'images' store sits under its
    own id, an identifier that starts with 'img-'.  A connection that is
    cached stays cached. *)
Theorem stores_keep_their_shape (ops : list Op) (w : World) :
  store_wf w →
  store_wf (perform_all ops w)
  ∧ dom (documents (perform_all ops w)) ⊆ {[DOCUMENT_ID]}
  ∧ (dbInstance w = true → dbInstance (perform_all ops w) = true).
Proof.
  revert w. induction ops as [|op ops IH]; intros w Hwf.
  - split; [done|]. split; [|done].
    intros k Hk. apply elem_of_dom in Hk as [r Hr].
    destruct (proj1 Hwf k r Hr) as [-> _]. set_solver.
  - cbn. destruct (keeps_perform op w) as [Hwf' Hdb'].
    destruct (IH (perform op w) (Hwf' Hwf)) as (H1 & H2 & H3).
    split; [exact H1|]. split; [exact H2|]. auto.
Qed.

Lemma stores_keep_their_shape_witness :
  let w := perform_all [OpPaste (Some [mkItem "image/png" (Some sample_blob)]);
                        OpSaveDocument sample_doc;
                        OpDeleteImage "img-0-none";
                        OpLoadDoc] sample_world in
  store_wf w
  ∧ dom (documents w) ⊆ {[DOCUMENT_ID]}
  ∧ is_Some (images w !! "img-1700000000000-k3j9x0q2z").
Proof.
  intros w.
  destruct (stores_keep_their_shape
              [OpPaste (Some [mkItem "image/png" (Some sample_blob)]);
               OpSaveDocument sample_doc;
               OpDeleteImage "img-0-none";
               OpLoadDoc] sample_world) as (Hwf & Hdom & _).
  { split; intros k r Hk; vm_compute in Hk; discriminate. }
  split; [exact Hwf|]. split; [exact Hdom|].
  vm_compute. by eexists.
Defined.

#[global] Instance str_le_total : Total str_le.
Proof. intros a b. unfold str_le. apply String.leb_total. Qed.

(** X2.  getAllImages, when it meets no storage failure, returns the
    identifiers of the stored images: each stored id once, nothing else, in
    ascending order. *)
Theorem getAllImages_lists_stored_ids (w : World) :
  storage_failure w = None →
  ∃ ids w',
    getAllImages w = (Ok ids, w')
    ∧ (∀ id, id ∈ ids ↔ is_Some (images w !! id))
    ∧ NoDup ids
    ∧ Sorted str_le ids
    ∧ length ids = size (images w).
Proof.
  intros Hf.
  assert (∃ w', getAllImages w
                = (Ok (merge_sort str_le (elements (dom (images w)))), w'))
    as [w' Hrun].
  { world_cases w; storage_unfold; try discriminate; by eexists. }
  exists (merge_sort str_le (elements (dom (images w)))), w'.
  split; [done|].
  pose proof (merge_sort_Permutation str_le (elements (dom (images w)))) as Hp.
  split; [|split; [|split]].
  - intros id. rewrite Hp, elem_of_elements. apply elem_of_dom.
  - rewrite Hp. apply NoDup_elements.
  - apply Sorted_merge_sort. apply _.
  - rewrite Hp. by rewrite <- size_dom.
Qed.

Lemma getAllImages_lists_stored_ids_witness :
  (getAllImages two_images_world).1 = Ok ["img-10-a"; "img-20-b"].
Proof.
  destruct (getAllImages_lists_stored_ids two_images_world)
    as (ids & w' & Hrun & _); [vm_compute; reflexivity|].
  rewrite Hrun. vm_compute in Hrun. injection Hrun as <- _. reflexivity.
Defined.

(** X3.  A successful deleteImage removes the record under the given id
    and nothing else: the other images and the document stay, also the
    document's references to the id, for which loadImage now returns null.
    Deleting an id that is not stored succeeds and changes nothing. *)
Theorem deleteImage_removes_one (w w1 : World) (id : string) :
  deleteImage id w = (Ok tt, w1) →
  images w1 = delete id (images w)
  ∧ documents w1 = documents w
  ∧ (∀ id', id' ≠ id → images w1 !! id' = images w !! id')
  ∧ (loadImage (JStr id) w1).1 = Ok None
  ∧ (images w !! id = None → images w1 = images w).
Proof.
  intros Hdel.
  assert (images w1 = delete id (images w) ∧ documents w1 = documents w)
    as [Hi Hd].
  { world_cases w; storage_unfold; by simplify_eq. }
  split; [done|]. split; [done|]. split; [|split].
  - intros id' Hne. rewrite Hi. by apply lookup_delete_ne.
  - destruct (loadImage_spec (JStr id) w1) as (r & w2 & Hload & _ & _ & Hr & _).
    rewrite Hload. destruct r as [url|]; [|done].
    destruct Hr as (rec & Hrec & _). cbn in Hrec.
    by rewrite Hi, lookup_delete_eq in Hrec.
  - intros Hnone. rewrite Hi. by apply delete_id.
Qed.

Lemma deleteImage_removes_one_witness :
  let w1 := (deleteImage "img-20-b" two_images_world).2 in
  deleteImage "img-20-b" two_images_world = (Ok tt, w1)
  ∧ (loadImage (JStr "img-20-b") w1).1 = Ok None
  ∧ images w1 !! "img-10-a" = images two_images_world !! "img-10-a"
  ∧ is_Some (images two_images_world !! "img-20-b").
Proof.
  intros w1.
  assert (deleteImage "img-20-b" two_images_world = (Ok tt, w1)) as Hdel
    by (vm_compute; reflexivity).
  destruct (deleteImage_removes_one _ _ _ Hdel) as (_ & _ & Hother & Hload & _).
  split; [exact Hdel|]. split; [exact Hload|].
  split; [by apply Hother|]. vm_compute. by eexists.
Defined.

(** X4.  saveImage does not look for a collision of identifiers.  Of two
    successful calls in a row, the second stores its blob under its id in
    any case; the record of the first survives when the two ids differ,
    and is replaced, the first blob lost, when Date.now() and the random
    suffix came out the same. *)
Theorem saveImage_collision_replaces (w w1 w2 : World) (b1 b2 : Blob)
  (id1 id2 : string) :
  saveImage b1 w = (Ok id1, w1) →
  saveImage b2 w1 = (Ok id2, w2) →
  (∃ c2, images w2 !! id2 = Some (mkImage id2 b2 c2))
  ∧ (id1 ≠ id2 → ∃ c1, images w2 !! id1 = Some (mkImage id1 b1 c1))
  ∧ (id1 = id2 → ∃ c2, images w2 = <[id1 := mkImage id1 b2 c2]> (images w)).
Proof.
  intros H1 H2.
  destruct (saveImage_stored _ _ _ _ H1) as (fs1 & _ & Hw1).
  destruct (saveImage_stored _ _ _ _ H2) as (fs2 & _ & Hw2).
  assert (images w1 = <[id1 := mkImage id1 b1 (default 0 (clock w !! 1%nat))]>
                        (images w)) as Hi1 by (by rewrite Hw1).
  assert (images w2 = <[id2 := mkImage id2 b2 (default 0 (clock w1 !! 1%nat))]>
                        (images w1)) as Hi2 by (by rewrite Hw2).
  split; [|split].
  - eexists. rewrite Hi2. apply lookup_insert_eq.
  - intros Hne. eexists. rewrite Hi2, lookup_insert_ne, Hi1 by done.
    apply lookup_insert_eq.
  - intros <-. eexists. rewrite Hi2, Hi1. apply insert_insert_eq.
Qed.

Lemma saveImage_collision_replaces_witness :
  let w := mkWorld true ∅ ∅ [] [] [] [5; 6; 5; 7] ["x"; "x"] in
  let r1 := saveImage sample_blob w in
  let r2 := saveImage (mkBlob "image/gif" []) r1.2 in
  r1.1 = Ok "img-5-x" ∧ r2.1 = Ok "img-5-x"
  ∧ ∃ c2, images r2.2 = {["img-5-x" := mkImage "img-5-x" (mkBlob "image/gif" []) c2]}.
Proof.
  intros w r1 r2.
  assert (saveImage sample_blob w = (Ok "img-5-x", r1.2)) as H1
    by (vm_compute; reflexivity).
  assert (saveImage (mkBlob "image/gif" []) r1.2 = (Ok "img-5-x", r2.2)) as H2
    by (vm_compute; reflexivity).
  destruct (saveImage_collision_replaces _ _ _ _ _ _ _ H1 H2) as (_ & _ & Hsame).
  destruct (Hsame eq_refl) as [c2 Hc2].
  split; [subst r1; by rewrite H1|]. split; [subst r2; by rewrite H2|].
  exists c2. rewrite Hc2. reflexivity.
Defined.

(** X5.  The connection is opened on demand and cached.  With a cached
    connection each storage function makes exactly one request and keeps
    the connection.  Without one, a failing open ends the call at once: no
    request on the store is made, both stores stay as they were, and
    nothing is cached, so that the next call opens again; an open that
    succeeds is cached, and the call goes on to its request on the store. *)
Theorem connection_opened_on_demand (op : Op) (w : World) :
  storage_function op = true →
  (dbInstance w = true →
   dbInstance (perform op w) = true
   ∧ faults (perform op w) = tail (faults w))
  ∧ (dbInstance w = false →
     match faults w with
     | Some e :: rest =>
         dbInstance (perform op w) = false
         ∧ faults (perform op w) = rest
         ∧ documents (perform op w) = documents w
         ∧ images (perform op w) = images w
     | _ =>
         dbInstance (perform op w) = true
         ∧ faults (perform op w) = tail (tail (faults w))
     end).
Proof.
  intros Hop.
  destruct op as [d| |b|[| | | |s| |]| |id|c| |e|items|files];
    try discriminate Hop; cbn [perform];
    (split; intros Hdb;
     [ world_cases w; try discriminate Hdb | world_cases w; try discriminate Hdb ];
     storage_unfold; cbn [validKey];
     repeat match goal with
            | |- context [match ?m !! ?k with _ => _ end] => destruct (m !! k)
            end; done).
Qed.

Lemma connection_opened_on_demand_witness :
  let w := mkWorld false ∅ ∅ [] [] [Some "UnknownError"; None] [] [] in
  dbInstance (perform OpLoadDocument w) = false
  ∧ dbInstance (perform_all [OpLoadDocument; OpLoadDocument] w) = true
  ∧ faults (perform_all [OpLoadDocument; OpLoadDocument] w) = [].
Proof.
  intros w.
  destruct (connection_opened_on_demand OpLoadDocument w eq_refl)
    as [_ Hclosed].
  destruct (Hclosed eq_refl) as (Hdb & Hfaults & _).
  split; [exact Hdb|]. split; vm_compute; reflexivity.
Defined.

(** X6.  Nothing on the load path writes: loadDocument, loadImage on any
    key, getAllImages, resolveImageUrls on any value and loadDoc fulfil in
    every world, whatever the requests do, and leave both stores exactly
    as they were. *)
Theorem load_path_only_reads (w : World) (k : json) (content : json) :
  (∃ r w', loadDocument w = (Ok r, w')
           ∧ documents w' = documents w ∧ images w' = images w)
  ∧ (∃ r w', loadImage k w = (Ok r, w')
             ∧ documents w' = documents w ∧ images w' = images w)
  ∧ (∃ r w', getAllImages w = (Ok r, w')
             ∧ documents w' = documents w ∧ images w' = images w)
  ∧ (∃ r w', resolveImageUrls content w = (Ok r, w')
             ∧ documents w' = documents w ∧ images w' = images w)
  ∧ (∃ r w', loadDoc w = (Ok r, w')
             ∧ documents w' = documents w ∧ images w' = images w).
Proof.
  split; [|split; [|split; [|split]]].
  - destruct (loadDocument_spec w) as (w' & Hrun & Hd & Hi). by eexists _, w'.
  - destruct (loadImage_spec k w) as (r & w' & Hrun & Hd & Hi & _).
    by exists r, w'.
  - world_cases w; storage_unfold; by do 2 eexists.
  - destruct (resolveImageUrls_walk_ok content w)
      as (out & w' & Hrun & (Hd & Hi & _) & _).
    by exists out, w'.
  - apply loadDoc_total.
Qed.

(* ===================================================================== *)
(** ** Further properties of the load path                               *)
(* ===================================================================== *)

Lemma mapM_unchanged (f : json → M json) (l : list json) (w : World) :
  Forall (λ x, f x w = (Ok x, w)) l → mapM f l w = (Ok l, w).
Proof.
  induction 1 as [|x l Hx Hl IH]; [done|].
  rewrite mapM_cons. unfold bind. by rewrite Hx, IH.
Qed.

(** X7.  A document without image nodes that carry an imageId goes through
    resolveImageUrls untouched: the result is the document itself, and the
    world is as before, no request made and no URL minted. *)
Theorem document_without_images_untouched (doc : json) (w : World) :
  (∀ path n, node_at path doc = Some n → is_image_ref n = false) →
  resolveImageUrls doc w = (Ok doc, w).
Proof.
  pose (P := λ v : json,
          (∀ path n, node_at path v = Some n → is_image_ref n = false) →
          resolveImageUrls v w = (Ok v, w)).
  enough (P doc ∧ ∀ l, doc = JArr l → Forall P l) as [H _] by exact H.
  assert (∀ v, (∀ l, prop "content" v = JArr l → Forall P l) → P v) as Hintro.
  { intros v Hv Hfree. rewrite resolveImageUrls_unfold.
    destruct (truthy v); [|done]. cbn [negb].
    assert (resolveImageNode v w = (Ok None, w)) as Hnode.
    { unfold resolveImageNode. pose proof (Hfree [] v eq_refl) as Hroot.
      unfold is_image_ref in Hroot. by rewrite Hroot. }
    unfold bind at 1. rewrite Hnode.
    destruct (prop "content" v) as [| | | | |l|] eqn:Hc; try done.
    assert (mapM resolveImageUrls l w = (Ok l, w)) as Hmap.
    { apply mapM_unchanged. apply Forall_lookup. intros i x Hi.
      pose proof (Hv l eq_refl) as Hl.
      apply (Forall_lookup_1 _ _ _ _ Hl Hi).
      intros path n Hn. apply (Hfree (i :: path)). cbn. by rewrite Hc, Hi. }
    unfold bind. rewrite Hmap.
    destruct v as [| | | | | |fs]; try discriminate Hc. cbn in Hc |- *.
    destruct (assoc_get "content" fs) as [c|] eqn:Hget; [|discriminate].
    cbn in Hc. subst c. by rewrite (assoc_set_same _ _ _ Hget). }
  induction doc as [| |b|z|s|l IH|fs IH] using json_nested_ind;
    try (split; [apply Hintro; intros l; cbn; discriminate
                |intros l; discriminate]).
  - split; [apply Hintro; intros l'; cbn; discriminate|].
    intros l' [= <-]. eapply Forall_impl; [exact IH|]. cbn. tauto.
  - split; [|discriminate].
    apply Hintro. intros l Hl. cbn in Hl.
    destruct (assoc_get "content" fs) as [v|] eqn:Hv; [|discriminate].
    cbn in Hl. subst v.
    by apply (assoc_get_Forall (λ v, P v ∧ ∀ l, v = JArr l → Forall P l)
                _ _ _ IH Hv).
Qed.

Lemma node_at_sample_doc (path : list nat) (n : json) :
  node_at path sample_doc = Some n → is_image_ref n = false.
Proof.
  destruct path as [|[|[|i]] [|[|j] [|k path]]]; cbn; intros H;
    simplify_eq; try reflexivity; try discriminate.
Qed.

Lemma document_without_images_untouched_witness :
  resolveImageUrls sample_doc one_image_world = (Ok sample_doc, one_image_world).
Proof.
  apply document_without_images_untouched. exact node_at_sample_doc.
Defined.

Lemma no_faults_storage_failure (w : World) :
  no_faults w → storage_failure w = None.
Proof.
  intros Hw. world_cases w; storage_unfold; no_faults_cases; done.
Qed.

Lemma loadDocument_no_faults (w : World) :
  no_faults w → no_faults (loadDocument w).2.
Proof.
  intros Hw. world_cases w; storage_unfold; no_faults_cases;
    repeat constructor; done.
Qed.

Lemma walk_reaches_truthy (imgs : gmap string ImageRecord) (path : list nat)
  (doc n : json) :
  walk_reaches imgs path doc = Some n → truthy n = true → truthy doc = true.
Proof.
  destruct path as [|i rest]; cbn.
  - by intros [= ->].
  - destruct (stored_image imgs doc); [done|].
    destruct doc; cbn; try done.
Qed.

(** resolveImageUrls never turns a truthy value into a falsy one. *)
Lemma resolveImageUrls_truthy (v out : json) (w w' : World) :
  truthy v = true → resolveImageUrls v w = (Ok out, w') → truthy out = true.
Proof.
  intros Ht. rewrite resolveImageUrls_unfold, Ht. cbn [negb]. unfold bind.
  destruct (resolveImageNode_spec v w) as (r & w1 & -> & _ & Hr & _).
  destruct r as [res|].
  - destruct Hr as (rec & url & _ & -> & _). intros [= <- _].
    unfold with_src. by destruct v.
  - destruct (prop "content" v) as [| | | | |l|]; try (by intros [= <- _]).
    destruct (mapM resolveImageUrls l w1) as [[outs|e] w2]; [|done].
    intros [= <- _]. by destruct v.
Qed.

(** What a handler returned, it stored. *)
Lemma handled_image_stored (items : option (list Item))
  (files : option (list Blob)) (w w' : World) (imageData : string * string) :
  handleImagePaste items w = (Ok (Some imageData), w')
  ∨ handleImageDrop files w = (Ok (Some imageData), w') →
  ∃ blob c rest,
    images w' !! imageData.1 = Some (mkImage imageData.1 blob c)
    ∧ imageData.1 = "img-" +:+ rest.
Proof.
  intros Hhandled.
  assert (∃ blob msg w1, storeAndLoad blob msg w1 = (Ok (Some imageData), w'))
    as (blob & msg & w1 & Hstore).
  { destruct Hhandled as [H|H].
    - destruct items as [l|]; [|discriminate].
      destruct (pasteItems_spec l _ _ _ H) as (b & w1 & w2 & _ & Hs & ->).
      by eexists b, _, w1.
    - destruct files as [l|]; [|discriminate].
      destruct (dropFiles_spec l _ _ _ H) as (b & w1 & w2 & _ & Hs & ->).
      by eexists b, _, w1. }
  destruct (storeAndLoad_spec _ _ _ _ _ Hstore)
    as ((c & Himg) & _ & _ & (rest & Hrest)).
  by exists blob, c, rest.
Qed.

(** X8.  A pasted or dropped image survives a reload.  When the handler
    has returned [imageData], the document of the editor (image nodes are
    leaves) holds at some place an image node with the imageId returned,
    whatever its other attributes, onSave has stored that document, and the
    page is loaded anew with no request failing, then loadDoc hands the
    editor the document with, at the same place, the same image node, its
    src, stale from the old page, replaced by a new object URL that
    displays the stored blob, and all its other attributes, imageId among
    them, as they were. *)
Theorem image_survives_reload (items : option (list Item))
  (files : option (list Blob)) (w w' w1 : World) (imageData : string * string)
  (d n : json) (path : list nat) :
  handleImagePaste items w = (Ok (Some imageData), w')
  ∨ handleImageDrop files w = (Ok (Some imageData), w') →
  leaf_images d →
  node_at path d = Some n →
  is_str "image" (prop "type" n) = true →
  prop "imageId" (prop "attrs" n) = JStr imageData.1 →
  onSave (Some d) w' = (Ok tt, w1) →
  no_faults w1 →
  ∃ out w2 url blob c,
    loadDoc (reload w1) = (Ok (Some out), w2)
    ∧ images w' !! imageData.1 = Some (mkImage imageData.1 blob c)
    ∧ node_at path out = Some (with_src n url)
    ∧ prop "src" (prop "attrs" (with_src n url)) = JStr url
    ∧ (∀ k, k ≠ "src" →
            prop k (prop "attrs" (with_src n url)) = prop k (prop "attrs" n))
    ∧ (∀ k, k ≠ "attrs" → prop k (with_src n url) = prop k n)
    ∧ url_displays w2 url blob.
Proof.
  intros Hhandled Hleaf Hnode Htype Hid Hsave Hw1.
  destruct (handled_image_stored _ _ _ _ _ Hhandled)
    as (blob & c & rest & Himg & Hrest).
  assert (is_image_ref n = true) as Href.
  { unfold is_image_ref. rewrite Htype. cbn [andb].
    destruct (prop "attrs" n); try done. cbn [opt_prop]. rewrite Hid, Hrest.
    reflexivity. }
  cbn [onSave] in Hsave.
  destruct (saveDocument_stored _ _ _ Hsave) as (t & Hdocs & Himgs & Hd).
  assert (no_faults (reload w1)) as Hr by exact Hw1.
  destruct (loadDocument_spec (reload w1)) as (w1' & Hload & Hd1 & Hi1).
  rewrite (no_faults_storage_failure _ Hr) in Hload.
  assert (stored_content (reload w1) = d) as Hsc by exact Hd.
  assert (truthy d = true) as Ht.
  { apply (walk_reaches_truthy ∅ path d n).
    - by apply leaf_images_walk.
    - by destruct n. }
  rewrite Hsc, Ht in Hload.
  pose proof (loadDocument_no_faults _ Hr) as Hw1'. rewrite Hload in Hw1'.
  cbn [snd] in Hw1'.
  destruct (resolveImageUrls_walk_ok d w1')
    as (out & w2 & Hrun & (Hd2 & Hi2 & _) & Hnf).
  destruct (Hnf Hw1') as [_ Hres].
  assert (images w2 = images w') as Hiw.
  { rewrite Hi2, Hi1. exact Himgs. }
  pose proof (leaf_images_walk (images w2) path d n Hleaf Hnode) as Hwalk.
  destruct (resolved_at_path w2 path d out _ Hres Hwalk) as (n' & Hn' & Hrn).
  apply resolved_node in Hrn.
  assert (stored_image (images w2) n = Some (mkImage imageData.1 blob c)) as Hs.
  { unfold stored_image. rewrite Href, Hid, Hiw. exact Himg. }
  rewrite Hs in Hrn. destruct Hrn as (url & -> & _ & Hdisp).
  destruct (with_src_keeps n url Href) as (Hsrc & Hattrs & Hprops).
  exists out, w2, url, blob, c.
  split.
  { unfold loadDoc, bind. rewrite Hload, Ht, Hrun. reflexivity. }
  split; [exact Himg|]. split; [exact Hn'|]. split; [exact Hsrc|].
  split; [exact Hattrs|]. split; [exact Hprops|exact Hdisp].
Qed.

Lemma leaf_images_pasted (imageData : string * string) :
  leaf_images (pasted_image_doc imageData).
Proof.
  intros path n Hn Hr. unfold pasted_image_doc in Hn.
  each_node Hn; simplify_eq; try reflexivity;
    vm_compute in Hr; discriminate Hr.
Qed.

Lemma image_survives_reload_witness :
  let paste := handleImagePaste (Some [mkItem "image/png" (Some sample_blob)])
                 sample_world in
  let imageData := ("img-1700000000000-k3j9x0q2z", "blob:0") in
  let d := pasted_image_doc imageData in
  paste.1 = Ok (Some imageData)
  ∧ (onSave (Some d) paste.2).1 = Ok tt
  ∧ ∃ out w2 url,
      loadDoc (reload (onSave (Some d) paste.2).2) = (Ok (Some out), w2)
      ∧ node_at [1%nat] out
        = Some (editorImage (JStr url) (JStr imageData.1))
      ∧ url_displays w2 url sample_blob.
Proof.
  intros paste imageData d.
  assert (handleImagePaste (Some [mkItem "image/png" (Some sample_blob)])
            sample_world = (Ok (Some imageData), paste.2)) as Hpaste
    by (vm_compute; reflexivity).
  assert (onSave (Some d) paste.2 = (Ok tt, (onSave (Some d) paste.2).2))
    as Hsave by (vm_compute; reflexivity).
  split; [subst paste; by rewrite Hpaste|].
  split; [by rewrite Hsave|].
  destruct (image_survives_reload _ None _ _ _ _ d _ [1%nat]
              (or_introl Hpaste) (leaf_images_pasted imageData)
              eq_refl eq_refl eq_refl Hsave)
    as (out & w2 & url & blob & c & Hload & Himg & Hnode & _ & _ & _ & Hdisp).
  { constructor. }
  vm_compute in Himg. injection Himg as <- _.
  exists out, w2, url. split; [exact Hload|]. split; [exact Hnode|exact Hdisp].
Defined.

(** X9.  What the editor starts with.  loadDocument yields null or a
    truthy document.  On null (nothing stored, a falsy content, or a
    storage failure) setContent is not called and the editor falls back to
    its welcome document; otherwise the editor is given the stored document
    with its images resolved, a truthy value, which the fallback never
    replaces. *)
Theorem editor_starts_with_stored_or_welcome (w : World) :
  ∃ v w1 loaded w',
    loadDocument w = (Ok v, w1)
    ∧ loadDoc w = (Ok loaded, w')
    ∧ (v = JNull ∨ truthy v = true)
    ∧ match loaded with
      | None =>
          v = JNull ∧ w' = w1
          ∧ editorContent (pageContent loaded) = defaultContent
      | Some resolvedContent =>
          truthy v = true
          ∧ resolveImageUrls v w1 = (Ok resolvedContent, w')
          ∧ editorContent (pageContent loaded) = resolvedContent
      end.
Proof.
  destruct (loadDocument_spec w) as (w1 & Hload & _).
  revert Hload.
  assert (∀ v, v = match storage_failure w with
                   | Some _ => JNull
                   | None => if truthy (stored_content w)
                             then stored_content w else JNull
                   end → v = JNull ∨ truthy v = true) as Hv.
  { intros v ->. destruct (storage_failure w); [by left|].
    destruct (truthy (stored_content w)) eqn:E; [by right|by left]. }
  specialize (Hv _ eq_refl). revert Hv.
  generalize (match storage_failure w with
              | Some _ => JNull
              | None => if truthy (stored_content w)
                        then stored_content w else JNull
              end). intros v Hv Hload.
  unfold loadDoc, bind. rewrite Hload.
  destruct (truthy v) eqn:Ht.
  - destruct (resolveImageUrls_walk_ok v w1) as (out & w' & Hrun & _).
    rewrite Hrun. exists v, w1, (Some out), w'.
    repeat split; try done; [by right|].
    unfold editorContent. cbn [pageContent].
    by rewrite (resolveImageUrls_truthy _ _ _ _ Ht Hrun).
  - exists v, w1, None, w1. destruct Hv as [->|Hv]; [|congruence].
    repeat split; try done. by left.
Qed.

(* ===================================================================== *)
(** ** Further properties of the paste and drop handlers                 *)
(* ===================================================================== *)

Lemma pasteItems_skips (skipped rest : list Item) (w : World) :
  forallb skipped_item skipped = true →
  pasteItems (skipped ++ rest) w = pasteItems rest w.
Proof.
  induction skipped as [|item skipped IH]; [done|]. cbn.
  intros H. apply andb_true_iff in H as [Hitem Hrest].
  unfold skipped_item in Hitem.
  destruct (mentions_image (item_type item)); [|by apply IH].
  destruct (getAsFile item); [done|by apply IH].
Qed.

Lemma dropFiles_skips (skipped rest : list Blob) (w : World) :
  forallb skipped_file skipped = true →
  dropFiles (skipped ++ rest) w = dropFiles rest w.
Proof.
  induction skipped as [|file skipped IH]; [done|]. cbn.
  intros H. apply andb_true_iff in H as [Hfile Hrest].
  unfold skipped_file in Hfile.
  destruct (mentions_image (blob_type file)); [done|by apply IH].
Qed.

Lemma pasteItems_total (items : list Item) (w : World) :
  ∃ r w', pasteItems items w = (Ok r, w').
Proof.
  revert w. induction items as [|item rest IH]; intros w; cbn.
  - by eexists _, _.
  - destruct (mentions_image (item_type item)); [|apply IH].
    destruct (getAsFile item) as [blob|]; [|apply IH].
    unfold bind.
    destruct (storeAndLoad_total blob "Failed to handle pasted image:" w)
      as ([d|] & w1 & ->); [by eexists _, _|apply IH].
Qed.

Lemma dropFiles_total (files : list Blob) (w : World) :
  ∃ r w', dropFiles files w = (Ok r, w').
Proof.
  revert w. induction files as [|file rest IH]; intros w; cbn.
  - by eexists _, _.
  - destruct (mentions_image (blob_type file)); [|apply IH].
    unfold bind.
    destruct (storeAndLoad_total file "Failed to handle dropped image:" w)
      as ([d|] & w1 & ->); [by eexists _, _|apply IH].
Qed.

(** X10.  The handlers never reject, whatever the clipboard or the drop
    holds and whatever the requests do.  Without a clipboard or a file
    list, with an empty one, or with one that holds nothing but items the
    loop skips (not of an image type, or a clipboard item without a file),
    they return null and leave the world untouched: no request is made and
    nothing is logged. *)
Theorem handlers_return_null_without_image (items : list Item)
  (files : list Blob) (w : World) :
  (∀ clip, ∃ r w', handleImagePaste clip w = (Ok r, w'))
  ∧ (∀ dropped, ∃ r w', handleImageDrop dropped w = (Ok r, w'))
  ∧ handleImagePaste None w = (Ok None, w)
  ∧ handleImageDrop None w = (Ok None, w)
  ∧ (forallb skipped_item items = true →
     handleImagePaste (Some items) w = (Ok None, w))
  ∧ (forallb skipped_file files = true →
     handleImageDrop (Some files) w = (Ok None, w)).
Proof.
  split; [|split; [|split; [|split; [|split]]]]; try reflexivity.
  - intros [l|]; [apply pasteItems_total|by eexists _, _].
  - intros [l|]; [apply dropFiles_total|by eexists _, _].
  - intros H. cbn. rewrite <- (app_nil_r items). by rewrite pasteItems_skips.
  - intros H. cbn. rewrite <- (app_nil_r files). by rewrite dropFiles_skips.
Qed.

Lemma handlers_return_null_without_image_witness :
  let failing := mkWorld false ∅ ∅ [] [] [Some "UnknownError"] [] [] in
  handleImagePaste (Some [mkItem "text/plain" None; mkItem "image/png" None])
    failing = (Ok None, failing)
  ∧ handleImageDrop (Some [mkBlob "application/pdf" []]) failing
    = (Ok None, failing).
Proof.
  intros failing.
  destruct (handlers_return_null_without_image
              [mkItem "text/plain" None; mkItem "image/png" None]
              [mkBlob "application/pdf" []] failing)
    as (_ & _ & _ & _ & Hpaste & Hdrop).
  split; [apply Hpaste|apply Hdrop]; reflexivity.
Defined.

Lemma saveImage_no_faults (b : Blob) (w : World) :
  no_faults w →
  ∃ id w1, saveImage b w = (Ok id, w1) ∧ no_faults w1.
Proof.
  intros Hw. world_cases w; storage_unfold; no_faults_cases;
    do 2 eexists; (split; [reflexivity|]); repeat constructor; done.
Qed.

Lemma storeAndLoad_no_faults (blob : Blob) (msg : string) (w : World) :
  no_faults w →
  ∃ id url c w',
    storeAndLoad blob msg w = (Ok (Some (id, url)), w')
    ∧ images w' = <[id := mkImage id blob c]> (images w)
    ∧ documents w' = documents w
    ∧ url_displays w' url blob.
Proof.
  intros Hw.
  destruct (saveImage_no_faults blob w Hw) as (id & w1 & Hsave & Hw1).
  destruct (saveImage_stored _ _ _ _ Hsave) as (fs' & Hid & Heq).
  assert (images w1 = <[id := mkImage id blob (default 0 (clock w !! 1%nat))]>
                        (images w) ∧ documents w1 = documents w) as [Hi1 Hd1]
    by (by rewrite Heq).
  destruct (loadImage_spec (JStr id) w1)
    as (r & w2 & Hload & Hd2 & Hi2 & Hr & Hnf).
  destruct (Hnf Hw1) as [_ Hnone].
  destruct r as [url|].
  2:{ specialize (Hnone eq_refl). cbn in Hnone.
      by rewrite Hi1, lookup_insert_eq in Hnone. }
  destruct Hr as (rec & Hrec & -> & Hurls). cbn in Hrec.
  rewrite Hi1, lookup_insert_eq in Hrec. injection Hrec as <-.
  cbn [img_blob] in Hurls.
  exists id, (blobURL (length (objectURLs w1))),
    (default 0 (clock w !! 1%nat)), w2.
  split.
  { unfold storeAndLoad, try_catch, bind. rewrite Hsave, Hload.
    assert (truthy (JStr (blobURL (length (objectURLs w1)))) = true) as ->.
    { cbn. destruct (String.eqb_spec (blobURL (length (objectURLs w1))) "")
        as [E|E]; [by apply blobURL_nonempty in E|done]. }
    reflexivity. }
  split; [congruence|]. split; [congruence|].
  exists (length (objectURLs w1)). split; [done|].
  by rewrite Hurls, list_lookup_middle.
Qed.

(** X11.  With no request failing, a handler stores exactly one image: the
    file of the first item it does not skip.  It returns the identifier of
    the new record, the only change to the 'images' store, and an object
    URL that displays the file; the items after it are not looked at. *)
Theorem handlers_store_first_image (w : World) :
  no_faults w →
  (∀ skipped item rest blob,
     forallb skipped_item skipped = true →
     mentions_image (item_type item) = true →
     getAsFile item = Some blob →
     ∃ id url c w',
       handleImagePaste (Some (skipped ++ item :: rest)) w
       = (Ok (Some (id, url)), w')
       ∧ images w' = <[id := mkImage id blob c]> (images w)
       ∧ documents w' = documents w
       ∧ url_displays w' url blob)
  ∧ (∀ skipped file rest,
       forallb skipped_file skipped = true →
       mentions_image (blob_type file) = true →
       ∃ id url c w',
         handleImageDrop (Some (skipped ++ file :: rest)) w
         = (Ok (Some (id, url)), w')
         ∧ images w' = <[id := mkImage id file c]> (images w)
         ∧ documents w' = documents w
         ∧ url_displays w' url file).
Proof.
  intros Hw. split.
  - intros skipped item rest blob Hskip Htype Hfile.
    destruct (storeAndLoad_no_faults blob "Failed to handle pasted image:" w Hw)
      as (id & url & c & w' & Hrun & Hrest).
    exists id, url, c, w'. split; [|done].
    cbn [handleImagePaste]. rewrite pasteItems_skips by done.
    cbn [pasteItems]. rewrite Htype, Hfile. unfold bind. by rewrite Hrun.
  - intros skipped file rest Hskip Htype.
    destruct (storeAndLoad_no_faults file "Failed to handle dropped image:" w Hw)
      as (id & url & c & w' & Hrun & Hrest).
    exists id, url, c, w'. split; [|done].
    cbn [handleImageDrop]. rewrite dropFiles_skips by done.
    cbn [dropFiles]. rewrite Htype. unfold bind. by rewrite Hrun.
Qed.

Lemma handlers_store_first_image_witness :
  ∃ w', handleImagePaste
          (Some [mkItem "text/html" None;
                 mkItem "image/png" (Some sample_blob);
                 mkItem "image/gif" (Some (mkBlob "image/gif" []))])
          sample_world
        = (Ok (Some ("img-1700000000000-k3j9x0q2z", "blob:0")), w')
        ∧ size (images w') = 1%nat.
Proof.
  destruct (handlers_store_first_image sample_world) as [Hpaste _];
    [constructor|].
  destruct (Hpaste [mkItem "text/html" None]
              (mkItem "image/png" (Some sample_blob))
              [mkItem "image/gif" (Some (mkBlob "image/gif" []))]
              sample_blob eq_refl eq_refl eq_refl)
    as (id & url & c & w' & Hrun & Himgs & _).
  exists w'. vm_compute in Hrun. injection Hrun as <- <- <-.
  split; vm_compute; reflexivity.
Defined.

(** X12.  How the shared try block of the handlers fails.  A storage
    failure while saving is logged by saveImage and again by the handler,
    and nothing is stored.  A failure while loading, after the image was
    saved, is logged by loadImage only, since loadImage does not rethrow:
    the handler gives up on the item without a message of its own and
    leaves the saved record in the store, although no node will refer to
    it. *)
Theorem handler_failure_modes (blob : Blob) (msg : string) (w : World) :
  (∀ e, storage_failure w = Some e →
        ∃ w', storeAndLoad blob msg w = (Ok None, w')
              ∧ images w' = images w
              ∧ console w' = console w ++ [("Failed to save image:", e);
                                           (msg, e)])
  ∧ (∀ id w1 e,
       saveImage blob w = (Ok id, w1) →
       storage_failure w1 = Some e →
       ∃ w', storeAndLoad blob msg w = (Ok None, w')
             ∧ (∃ c, images w' !! id = Some (mkImage id blob c))
             ∧ console w' = console w ++ [("Failed to load image:", e)]).
Proof.
  split.
  - intros e He. unfold storeAndLoad, try_catch, bind.
    world_cases w; storage_unfold; simplify_eq; eexists;
      (split; [reflexivity|]); split; cbn; try done;
      by rewrite <- app_assoc.
  - intros id w1 e Hsave He.
    destruct (saveImage_stored _ _ _ _ Hsave) as (fs' & Hid & ->).
    unfold storeAndLoad, try_catch, bind. rewrite Hsave.
    destruct fs' as [|[e'|] fs']; storage_unfold; cbn [validKey];
      simplify_eq.
    eexists. split; [reflexivity|]. cbn. split; [|done].
    eexists. apply lookup_insert_eq.
Qed.

Lemma handler_failure_modes_witness :
  let w := mkWorld true ∅ ∅ [] [] [None; Some "UnknownError"] [7; 8] ["q"] in
  ∃ w', storeAndLoad sample_blob "Failed to handle dropped image:" w
        = (Ok None, w')
        ∧ is_Some (images w' !! "img-7-q")
        ∧ console w' = [("Failed to load image:", "UnknownError")].
Proof.
  intros w.
  destruct (handler_failure_modes sample_blob
              "Failed to handle dropped image:" w) as [_ Hload].
  destruct (Hload "img-7-q" (saveImage sample_blob w).2 "UnknownError")
    as (w' & Hrun & [c Hc] & Hcon); [vm_compute; reflexivity..|].
  exists w'. split; [exact Hrun|]. split; [by eexists|exact Hcon].
Defined.

(* ===================================================================== *)
(** ** Further properties of the autosave hook                           *)
(* ===================================================================== *)

Lemma ceil_seconds_pos (delay : Z) : 1 ≤ delay → 1 ≤ ceil_seconds delay.
Proof.
  intros H. unfold ceil_seconds.
  apply Z.div_le_lower_bound; lia.
Qed.

Ltac display_parts :=
  unfold display_ok in *; cbn in *;
  (split; [|split; [|split; [|split]]]).

Ltac display_last :=
  let t := fresh "t" in
  let Hst := fresh "Hst" in
  intros t Hst;
  first [ injection Hst as <-; lia
        | match goal with
          | Hl : ∀ t, _ = Some t → _ |- _ => pose proof (Hl t Hst); lia
          end ].

Ltac display_side := first [ lia | done | display_last ].

Lemma step_display_ok (delay t0 : Z) (e : Event) (h h' : Hook) :
  1 ≤ delay → tracked h → display_ok delay t0 h →
  step delay e h = Some h' → display_ok delay t0 h'.
Proof.
  intros Hdelay Ht (Hc & Hrem & Hsaved & Hlast & Hnow) Hstep.
  pose proof (ceil_seconds_pos delay Hdelay) as Hceil.
  destruct e as [dt| |id|r| | |]; cbn [step] in Hstep.
  - destruct (Z.leb_spec 0 dt); [|done]. injection Hstep as <-.
    destruct h. display_parts; display_side.
  - injection Hstep as <-. rewrite (triggerAutosave_spec delay h Ht).
    destruct h. display_parts; try display_side.
    intros id due rem H.
    apply lookup_insert_Some in H as [[_ [=]]|[_ H]].
    apply lookup_insert_Some in H as [[_ [= _ <-]]|[_ H]]; [lia|done].
  - destruct (timers h !! id) as [[due|due rem]|] eqn:Hid; [| |done].
    + destruct (due <=? now h); [|done]. injection Hstep as <-.
      rewrite save_begin_spec by by apply tracked_clearTimer.
      destruct h. display_parts; display_side.
    + destruct (due <=? now h); [|done]. injection Hstep as <-.
      pose proof (Hrem id due rem Hid) as Hr.
      destruct h as [t st tr cr p tm nx aw calls errs].
      destruct Ht as (Hsave & Hcount & Htr & Hcr & Hnext).
      cbn in Hid. pose proof (Hcount id due rem Hid) as Hcr'. cbn in Hcr'.
      subst cr. hook_unfold.
      rewrite (truthy_handle_true id) by congruence.
      destruct (Z.leb_spec (rem - 1) 0); cbn [andb];
        display_parts; try display_side.
      * intros id' due' r' H'. apply lookup_delete_Some in H' as [Hne H'].
        rewrite lookup_insert_ne in H' by done. eauto.
      * intros id' due' r' H'.
        apply lookup_insert_Some in H' as [[_ [= _ <-]]|[_ H']]; [lia|eauto].
  - destruct (awaiting h) as [|n] eqn:Haw; [done|]. injection Hstep as <-.
    destruct h. destruct r; display_parts; display_side.
  - injection Hstep as <-. rewrite (save_begin_spec h Ht).
    destruct h. display_parts; display_side.
  - injection Hstep as <-. rewrite (clearTimers_spec h Ht).
    destruct h. display_parts; display_side.
  - injection Hstep as <-. unfold handleBeforeUnload.
    destruct h. destruct pendingChangesRef0; display_parts; display_side.
Qed.

Lemma run_display_ok (delay t0 : Z) (evs : list Event) (h : Hook) :
  1 ≤ delay → run delay evs (init t0) = Some h → display_ok delay t0 h.
Proof.
  intros Hdelay. revert h.
  induction evs as [|e evs IH] using rev_ind; intros h.
  - intros [= <-]. pose proof (ceil_seconds_pos delay Hdelay).
    display_parts; display_side.
  - rewrite run_snoc.
    destruct (run delay evs (init t0)) as [h0|] eqn:Hrun; [|done]. cbn.
    apply step_display_ok; [done|by eapply run_tracked|by apply IH].
Qed.

(** X13.  What the indicator can show.  For a delay of at least one
    millisecond, in every state the hook gets to the text is one of
    - 'Typing... autosave in Ns', N the countdown, between 0 and the delay
      in seconds rounded up;
    - 'Saving...';
    - 'Saved at' with the time of a save that fulfilled, a time between
      the mount and now: a status 'saved' always comes with a lastSaved,
      the other branch of the code for it is never taken;
    - 'All changes saved', for the status 'idle' only. *)
Theorem indicator_text_cases (toLocaleTimeString : Z → string)
  (delay t0 : Z) (h : Hook) :
  1 ≤ delay →
  reachable delay t0 h →
  (status (hstatus h) = "typing"
   ∧ getStatusText toLocaleTimeString (hstatus h)
     = "Typing... autosave in " +:+ pretty (countdown (hstatus h)) +:+ "s"
   ∧ 0 ≤ countdown (hstatus h) ≤ ceil_seconds delay)
  ∨ (status (hstatus h) = "saving"
     ∧ getStatusText toLocaleTimeString (hstatus h) = "Saving...")
  ∨ (status (hstatus h) = "saved"
     ∧ ∃ t, lastSaved (hstatus h) = Some t
            ∧ t0 ≤ t ≤ now h
            ∧ getStatusText toLocaleTimeString (hstatus h)
              = "Saved at " +:+ toLocaleTimeString t)
  ∨ (status (hstatus h) = "idle"
     ∧ getStatusText toLocaleTimeString (hstatus h) = "All changes saved").
Proof.
  intros Hdelay [evs Hrun].
  pose proof (run_valid_status _ _ _ _ Hrun) as Hv.
  destruct (run_display_ok _ _ _ _ Hdelay Hrun) as (Hc & _ & Hsaved & Hlast & _).
  apply valid_status_cases in Hv. unfold getStatusText.
  destruct Hv as [Hs | [Hs | [Hs | Hs]]]; rewrite Hs; cbn.
  - right. right. right. done.
  - left. done.
  - right. left. done.
  - right. right. left. split; [done|].
    destruct (lastSaved (hstatus h)) as [t|] eqn:Hl; [|by destruct (Hsaved Hs)].
    exists t. split; [done|]. split; [by apply Hlast|done].
Qed.

Lemma indicator_text_cases_witness :
  ∃ h, run 5000 [Edit; Elapse 5000; Fire 2; Elapse 12; Settle None] (init 0)
       = Some h
       ∧ getStatusText pretty (hstatus h) = "Saved at 5012".
Proof.
  eexists.
  assert (∀ P Q : Prop, P → (P → Q) → P ∧ Q) as Hcut by tauto.
  apply Hcut; [vm_compute; reflexivity|]. intros Hrun.
  destruct (indicator_text_cases pretty 5000 0 _ ltac:(lia)
              (ex_intro _ _ Hrun))
    as [(Hs & _) | [(Hs & _) | [(_ & t & Hl & _ & Htext) | (Hs & _)]]];
    try (vm_compute in Hs; discriminate).
  vm_compute in Hl. injection Hl as <-. exact Htext.
Defined.

Lemma step_save_budget (delay : Z) (e : Event) (h h' : Hook) :
  tracked h → step delay e h = Some h' →
  (onSaveCalls h' + pending_timer h'
   ≤ onSaveCalls h + pending_timer h + (if may_save e then 1 else 0))%nat.
Proof.
  intros Ht Hstep. unfold pending_timer.
  destruct e as [dt| |id|r| | |]; cbn [step may_save] in *.
  - destruct (0 <=? dt); [|done]. injection Hstep as <-. destruct h. cbn. lia.
  - injection Hstep as <-. rewrite (triggerAutosave_spec delay h Ht). cbn.
    destruct (timeoutRef h); lia.
  - destruct (timers h !! id) as [[due|due rem]|] eqn:Hid; [| |done].
    + destruct (due <=? now h); [|done]. injection Hstep as <-.
      rewrite save_begin_spec by by apply tracked_clearTimer.
      rewrite (proj1 Ht id due Hid). destruct h. cbn. lia.
    + destruct (due <=? now h); [|done]. injection Hstep as <-.
      destruct h as [t st tr cr p tm nx aw calls errs]. hook_unfold.
      match goal with
      | |- context [if ?c then _ else _] => destruct c
      end; destruct cr; cbn; lia.
  - destruct (awaiting h) as [|n] eqn:Haw; [done|]. injection Hstep as <-.
    destruct h. destruct r; cbn; lia.
  - injection Hstep as <-. rewrite (save_begin_spec h Ht). cbn.
    destruct (timeoutRef h); lia.
  - injection Hstep as <-. rewrite (clearTimers_spec h Ht). cbn.
    destruct (timeoutRef h); lia.
  - injection Hstep as <-. unfold handleBeforeUnload.
    destruct h. destruct pendingChangesRef0; cbn; lia.
Qed.

(** X14.  onSave is called at most once for each edit, call of save and
    unload of the page: however the events fall, the calls made so far,
    plus one for a save timer still pending, never outnumber them.  In a
    page that neither calls save nor unloads, there are no more saves than
    edits. *)
Theorem saves_never_outnumber_edits (delay t0 : Z) (evs : list Event)
  (h : Hook) :
  run delay evs (init t0) = Some h →
  (onSaveCalls h + pending_timer h ≤ length (filter may_save evs))%nat
  ∧ (Forall (λ e, e ≠ CallSave ∧ e ≠ BeforeUnload) evs →
     (onSaveCalls h ≤ length (filter is_edit evs))%nat).
Proof.
  intros Hrun.
  assert (onSaveCalls h + pending_timer h ≤ length (filter may_save evs))%nat
    as Hbudget.
  { revert h Hrun. induction evs as [|e evs IH] using rev_ind; intros h.
    - intros [= <-]. cbn. lia.
    - rewrite run_snoc.
      destruct (run delay evs (init t0)) as [h0|] eqn:Hrun; [|done]. cbn.
      intros Hstep.
      pose proof (step_save_budget _ _ _ _ (run_tracked _ _ _ _ Hrun) Hstep).
      specialize (IH h0 eq_refl).
      rewrite filter_app, length_app. cbn.
      destruct (may_save e); cbn; case_decide; try done; cbn; lia. }
  split; [exact Hbudget|]. intros Hpage.
  assert (filter may_save evs = filter is_edit evs) as <-; [|lia].
  clear -Hpage. induction Hpage as [|e evs [H1 H2] _ IH]; [done|].
  rewrite !filter_cons, IH. by destruct e.
Qed.

Lemma saves_never_outnumber_edits_witness :
  ∃ h, run 5000 [Edit; Elapse 100; Edit; Elapse 100; Edit; Elapse 5000; Fire 6]
         (init 0) = Some h
       ∧ onSaveCalls h = 1%nat
       ∧ (onSaveCalls h ≤ 3)%nat.
Proof.
  eexists.
  assert (∀ P Q : Prop, P → (P → Q) → P ∧ Q) as Hcut by tauto.
  apply Hcut; [vm_compute; reflexivity|]. intros Hrun.
  destruct (saves_never_outnumber_edits _ _ _ _ Hrun) as [_ Hedits].
  split; [reflexivity|]. apply Hedits.
  repeat constructor; discriminate.
Defined.

(** X16.  No timer outlives the hook.  In every state the hook gets to,
    each active timer is the one held by timeoutRef or by
    countdownIntervalRef, so that clearTimers, which the cleanup of the
    effect and every save run, leaves no timer active: after it no timer
    callback can run before the next edit. *)
Theorem no_timer_outlives_cleanup (delay t0 : Z) (evs : list Event) (h : Hook) :
  run delay evs (init t0) = Some h →
  (∀ id, is_Some (timers h !! id) →
         timeoutRef h = Some id ∨ countdownIntervalRef h = Some id)
  ∧ timers (clearTimers h) = ∅
  ∧ (∀ evs' id,
       Forall (λ e, is_edit e = false) evs' →
       run delay (Cleanup :: evs' ++ [Fire id]) h = None).
Proof.
  intros Hrun. pose proof (run_tracked _ _ _ _ Hrun) as Ht.
  split; [|split].
  - intros id [[due|due rem] Hid].
    + left. by apply (proj1 Ht id due).
    + right. by apply (proj1 (proj2 Ht) id due rem).
  - by rewrite (clearTimers_spec h Ht).
  - intros evs' id Hevs. cbn [run step].
    assert (tracked (clearTimers h) ∧ timers (clearTimers h) = ∅) as [Ht0 He0].
    { split; [by apply (step_tracked delay Cleanup h)|].
      by rewrite (clearTimers_spec h Ht). }
    revert Ht0 He0. generalize (clearTimers h). clear -Hevs.
    induction Hevs as [|e evs' He _ IH]; intros h0 Ht0 He0.
    + cbn. by rewrite He0, lookup_empty.
    + cbn [app run].
      destruct (step delay e h0) as [h1|] eqn:Hstep; [|done].
      apply IH; [by eapply step_tracked|].
      apply map_empty. intros id'.
      destruct (timers h1 !! id') as [[due|due rem]|] eqn:Hid; [| |done].
      * pose proof (step_keeps_save_timers _ _ _ _ _ _ Ht0 He Hstep Hid) as H.
        by rewrite He0, lookup_empty in H.
      * exfalso. clear IH. destruct e as [dt| |id0|r| | |]; try done;
          cbn [step] in Hstep.
        -- destruct (0 <=? dt); [|done]. injection Hstep as <-.
           destruct h0. cbn in *. by rewrite He0, lookup_empty in Hid.
        -- by rewrite He0, lookup_empty in Hstep.
        -- destruct (awaiting h0); [done|]. injection Hstep as <-.
           destruct h0. destruct r; cbn in *; by rewrite He0, lookup_empty in Hid.
        -- injection Hstep as <-. rewrite (save_begin_spec h0 Ht0) in Hid.
           cbn in Hid. by rewrite lookup_empty in Hid.
        -- injection Hstep as <-. rewrite (clearTimers_spec h0 Ht0) in Hid.
           cbn in Hid. by rewrite lookup_empty in Hid.
        -- injection Hstep as <-. unfold handleBeforeUnload in Hid.
           destruct h0. destruct pendingChangesRef0; cbn in *;
             by rewrite He0, lookup_empty in Hid.
Qed.

Lemma no_timer_outlives_cleanup_witness :
  ∃ h, run 5000 [Edit; Elapse 1000; Fire 1] (init 0) = Some h
       ∧ size (timers h) = 2%nat
       ∧ timers (clearTimers h) = ∅
       ∧ run 5000 (Cleanup :: [Elapse 9000; BeforeUnload] ++ [Fire 2]) h = None.
Proof.
  eexists.
  assert (∀ P Q : Prop, P → (P → Q) → P ∧ Q) as Hcut by tauto.
  apply Hcut; [vm_compute; reflexivity|]. intros Hrun.
  destruct (no_timer_outlives_cleanup _ _ _ _ Hrun) as (_ & Hempty & Hquiet).
  split; [vm_compute; reflexivity|]. split; [exact Hempty|].
  apply Hquiet. repeat constructor.
Defined.

(** X17.  pendingChangesRef is true exactly when an edit came after the
    last save that fulfilled (or after the mount, when none did); the
    unload listener calls onSave in exactly those states, once. *)
Theorem unload_saves_unsaved_edits (delay t0 : Z) (evs : list Event)
  (h : Hook) :
  run delay evs (init t0) = Some h →
  pendingChangesRef h = edited_since_saved evs
  ∧ onSaveCalls (handleBeforeUnload h)
    = (onSaveCalls h + if edited_since_saved evs then 1 else 0)%nat.
Proof.
  intros Hrun.
  assert (pendingChangesRef h = edited_since_saved evs) as Hp.
  { revert h Hrun. induction evs as [|e evs IH] using rev_ind; intros h.
    - by intros [= <-].
    - rewrite run_snoc.
      destruct (run delay evs (init t0)) as [h0|] eqn:Hrun; [|done]. cbn.
      intros Hstep. pose proof (run_tracked _ _ _ _ Hrun) as Ht.
      unfold edited_since_saved. rewrite foldl_app. cbn [foldl].
      fold (edited_since_saved evs). rewrite <- (IH h0 eq_refl).
      destruct e as [dt| |id|r| | |]; cbn [step] in Hstep.
      + destruct (0 <=? dt); [|done]. injection Hstep as <-. by destruct h0.
      + injection Hstep as <-. by rewrite (triggerAutosave_spec delay h0 Ht).
      + destruct (timers h0 !! id) as [[due|due rem]|] eqn:Hid; [| |done];
          (destruct (due <=? now h0); [|done]); injection Hstep as <-.
        * rewrite save_begin_spec by by apply tracked_clearTimer.
          by destruct h0.
        * destruct h0 as [t st tr cr p tm nx aw calls errs]. hook_unfold.
          match goal with
          | |- context [if ?c then _ else _] => destruct c
          end; by destruct cr.
      + destruct (awaiting h0) as [|n]; [done|]. injection Hstep as <-.
        destruct h0. by destruct r.
      + injection Hstep as <-. by rewrite (save_begin_spec h0 Ht).
      + injection Hstep as <-. by rewrite (clearTimers_spec h0 Ht).
      + injection Hstep as <-. unfold handleBeforeUnload.
        destruct h0. by destruct pendingChangesRef0. }
  split; [exact Hp|]. rewrite <- Hp. unfold handleBeforeUnload.
  destruct h. cbn. destruct pendingChangesRef0; cbn; lia.
Qed.

Lemma unload_saves_unsaved_edits_witness :
  ∃ h, run 5000 [Edit; Elapse 5000; Fire 2; Settle (Some "QuotaExceededError")]
         (init 0) = Some h
       ∧ pendingChangesRef h = true
       ∧ onSaveCalls (handleBeforeUnload h) = 2%nat.
Proof.
  eexists.
  assert (∀ P Q : Prop, P → (P → Q) → P ∧ Q) as Hcut by tauto.
  apply Hcut; [vm_compute; reflexivity|]. intros Hrun.
  destruct (unload_saves_unsaved_edits _ _ _ _ Hrun) as [Hp Hcalls].
  split; [exact Hp|exact Hcalls].
Defined.
